(** * go-concurrency: order processing with goroutines and a WaitGroup

    A model of the two Go programs of the repository
    ([01-sequential-synchronous/main.go] and
    [02-goroutines-and-waitgroups/main.go]) and of the properties their
    specification states about them.

    Go functions are written as command trees in continuation-passing style
    (one constructor per kind of statement the programs use); goroutines are
    interleaved by an explicit scheduler: a schedule is the list of the
    goroutine ids that take the successive steps, so that "under any
    interleaving" is "for every schedule". *)

From Stdlib Require Import ZArith List Bool Lia String.
From stdpp Require Import base list.

Local Open Scope Z_scope.

(** ** Data model *)

(** [time.Duration] is a count of nanoseconds (an int64; the programs only
    multiply small constants and subtract two instants, far from its
    bounds, so it is kept in [Z]). *)
Definition Duration := Z.
Definition Second : Duration := 1000000000.

(** [type Order struct { ID int; PrepTime time.Duration }] *)
Record Order := mkOrder { ID : Z; PrepTime : Duration }.

(** What the programs print.  A constructor stands for a format string, its
    arguments are the values formatted into it; the emoji and the line
    breaks of the format strings are left out. *)
Inductive msg :=
| Text (s : string)
| Started (id : Z)
| Ready (id : Z) (d : Duration)
| VipStarted (id : Z) (name : string)
| VipReady (id : Z) (name : string) (d : Duration)
| Elapsed (label : string) (d : Duration)
| Count (label : string) (n : Z).

(** ** The counting barrier *)

(** [sync.WaitGroup] belongs to Go's standard library: its implementation is
    not part of the repository.  The three operations are modelled on the
    counter [pending] alone. *)
Module WaitGroup.

(** Modelled from the spec: [sync.WaitGroup.Add] is missing.  The spec has
    register increment [pending] by one and requires a count that would go
    negative to be detected rather than stored; the comment of
    [goroutinesWithWaitGroup] says Add "increments the counter".  [None] is
    the contract violation (a panic in Go). *)
Definition Add (delta pending : Z) : option Z :=
  let c := pending + delta in
  if c <? 0 then None else Some c.

(** Modelled from the spec: [sync.WaitGroup.Done] is missing.  Signal
    decrements [pending] by one. *)
Definition Done (pending : Z) : option Z := Add (-1) pending.

(** Modelled from the spec: [sync.WaitGroup.Wait] is missing.  Await blocks
    until [pending] reaches zero and returns immediately when it is zero
    already; [Wait pending] is [true] when the call returns. *)
Definition Wait (pending : Z) : bool := pending =? 0.

End WaitGroup.

(** ** Commands *)

(** Names of [order] variables.  A [for _, order := range orders] loop has
    one variable for the whole loop before Go 1.22 and a fresh one per
    iteration from Go 1.22 on; the repository carries no [go.mod], so both
    are modelled. *)
Definition var := nat.

Inductive loopvar := SharedVar | PerIteration.

Definition slot (sem : loopvar) (i : nat) : var :=
  match sem with SharedVar => 0%nat | PerIteration => i end.

Inductive prog :=
| Ret                                        (* the function returns *)
| Printf (m : msg) (k : prog)                (* fmt.Printf / fmt.Println *)
| Sleep (d : Duration) (k : prog)            (* time.Sleep(d) *)
| Now (k : Z -> prog)                        (* time.Now() *)
| NumGoroutine (k : Z -> prog)               (* runtime.NumGoroutine() *)
| SetVar (x : var) (o : Order) (k : prog)    (* the range clause assigns order *)
| GetVar (x : var) (k : Order -> prog)       (* the expression [order] is evaluated *)
| WgAdd (delta : Z) (k : prog)               (* wg.Add(delta) *)
| WgDone (k : prog)                          (* wg.Done() *)
| WgWait (k : prog)                          (* wg.Wait() *)
| Defer (d : prog) (k : prog)                (* defer d *)
| Go (body : prog) (k : prog).               (* go body *)

(** [for i, order := range orders { body }; k] *)
Fixpoint forRange (sem : loopvar) (i : nat) (orders : list Order)
    (body : var -> prog -> prog) (k : prog) : prog :=
  match orders with
  | [] => k
  | o :: rest =>
      SetVar (slot sem i) o (body (slot sem i) (forRange sem (S i) rest body k))
  end.

(** ** Goroutines and the scheduler *)

(** A goroutine: the code left to run, the deferred calls of its function
    (last deferred first) and its clock.  Time is logical: only [time.Sleep]
    takes time, a new goroutine starts at the time of its [go] statement, and
    [wg.Wait] returns no earlier than the last [Add]/[Done] it waited for. *)
Record thread := Thread { code : prog; defers : list prog; clock : Z }.

Inductive action :=
| APrintf (m : msg)
| ASleep (d : Duration)
| AAdd (delta : Z)
| ADone
| AWait
| ADefer
| AGo (child : nat)
| APanic.

(** An event: goroutine [ev_tid] (0 is the coordinator, the goroutine that
    runs the function itself) performed [ev_act]. *)
Record event := Ev { ev_tid : nat; ev_act : action }.

Record state := State {
  coordinator : thread;
  gos : list thread;          (* goroutine [S j] is [gos !! j] *)
  pending : Z;                (* the WaitGroup counter *)
  wg_clock : Z;               (* time of the latest Add / Done *)
  vars : var -> Order;        (* the [order] variables *)
  trace : list event;         (* newest event first *)
  panicked : bool
}.

Definition zeroOrder : Order := mkOrder 0 0.

Definition init (p : prog) : state :=
  State (Thread p [] 0) [] 0 0 (fun _ => zeroOrder) [] false.

Definition finished (t : thread) : bool :=
  match code t, defers t with
  | Ret, [] => true
  | _, _ => false
  end.

Definition get_thread (i : nat) (s : state) : option thread :=
  match i with
  | O => Some (coordinator s)
  | S j => gos s !! j
  end.

Definition set_thread (i : nat) (t : thread) (s : state) : state :=
  match i with
  | O => State t (gos s) (pending s) (wg_clock s) (vars s) (trace s) (panicked s)
  | S j => State (coordinator s) (<[j:=t]> (gos s)) (pending s) (wg_clock s)
             (vars s) (trace s) (panicked s)
  end.

Definition emit (e : event) (s : state) : state :=
  State (coordinator s) (gos s) (pending s) (wg_clock s) (vars s)
        (e :: trace s) (panicked s).

Definition set_var (x : var) (o : Order) (s : state) : state :=
  State (coordinator s) (gos s) (pending s) (wg_clock s)
        (fun y => if Nat.eqb y x then o else vars s y) (trace s) (panicked s).

Definition spawn (t : thread) (s : state) : state :=
  State (coordinator s) (gos s ++ [t]) (pending s) (wg_clock s) (vars s)
        (trace s) (panicked s).

Definition set_pending (c : Z) (at_time : Z) (s : state) : state :=
  State (coordinator s) (gos s) c (Z.max (wg_clock s) at_time) (vars s)
        (trace s) (panicked s).

Definition panic (i : nat) (s : state) : state :=
  State (coordinator s) (gos s) (pending s) (wg_clock s) (vars s)
        (Ev i APanic :: trace s) true.

(** The number [runtime.NumGoroutine] reports: the coordinator and the
    goroutines that have not returned. *)
Definition num_goroutine (s : state) : Z :=
  1 + Z.of_nat (length (filter (fun t => negb (finished t)) (gos s))).

(** The counter after adding [delta] from goroutine [i] at time [now]. *)
Definition wg_add (i : nat) (a : action) (delta : Z) (now : Z) (t' : thread)
    (s : state) : state :=
  match WaitGroup.Add delta (pending s) with
  | Some c => emit (Ev i a) (set_pending c now (set_thread i t' s))
  | None => panic i s
  end.

(** One step of goroutine [i]; [None] when it cannot move: it does not exist,
    it has returned, it is blocked in [wg.Wait], or the program panicked. *)
Definition step (i : nat) (s : state) : option state :=
  if panicked s then None else
  match get_thread i s with
  | None => None
  | Some t =>
      let ds := defers t in
      let c := clock t in
      match code t with
      | Ret =>
          match ds with
          | [] => None
          | d :: ds' => Some (set_thread i (Thread d ds' c) s)
          end
      | Printf m k =>
          Some (emit (Ev i (APrintf m)) (set_thread i (Thread k ds c) s))
      | Sleep d k =>
          Some (emit (Ev i (ASleep d))
                  (set_thread i (Thread k ds (c + Z.max 0 d)) s))
      | Now k => Some (set_thread i (Thread (k c) ds c) s)
      | NumGoroutine k =>
          Some (set_thread i (Thread (k (num_goroutine s)) ds c) s)
      | SetVar x o k => Some (set_var x o (set_thread i (Thread k ds c) s))
      | GetVar x k => Some (set_thread i (Thread (k (vars s x)) ds c) s)
      | WgAdd delta k => Some (wg_add i (AAdd delta) delta c (Thread k ds c) s)
      | WgDone k => Some (wg_add i ADone (-1) c (Thread k ds c) s)
      | WgWait k =>
          if WaitGroup.Wait (pending s)
          then Some (emit (Ev i AWait)
                       (set_thread i (Thread k ds (Z.max c (wg_clock s))) s))
          else None
      | Defer d k =>
          Some (emit (Ev i ADefer) (set_thread i (Thread k (d :: ds) c) s))
      | Go body k =>
          Some (emit (Ev i (AGo (S (length (gos s)))))
                  (spawn (Thread body [] c) (set_thread i (Thread k ds c) s)))
      end
  end.

(** A schedule names the goroutine of each successive step. *)
Fixpoint run (sched : list nat) (s : state) : option state :=
  match sched with
  | [] => Some s
  | i :: rest =>
      match step i s with
      | Some s' => run rest s'
      | None => None
      end
  end.

Definition reachable (p : prog) (s : state) : Prop :=
  exists sched, run sched (init p) = Some s.

(** The execution is complete: every goroutine has returned. *)
Definition complete (s : state) : bool :=
  finished (coordinator s) && forallb finished (gos s).

(** ** 01-sequential-synchronous/main.go *)
Module SequentialSynchronous.

Definition processOrder (order : Order) (k : prog) : prog :=
  Printf (Started (ID order))
    (Sleep (PrepTime order)
      (Printf (Ready (ID order) (PrepTime order)) k)).

Definition orders : list Order :=
  [ mkOrder 1 (2 * Second); mkOrder 2 (3 * Second); mkOrder 3 (1 * Second);
    mkOrder 4 (4 * Second); mkOrder 5 (2 * Second) ].

(** The loop of [main] over any list of orders. *)
Definition processAll (sem : loopvar) (batch : list Order) (k : prog) : prog :=
  forRange sem 0 batch
    (fun x k' => GetVar x (fun order => processOrder order k')) k.

(** [main], with the literal order list replaced by [batch]. *)
Definition mainOn (sem : loopvar) (batch : list Order) : prog :=
  Printf (Text "Sequential Synchronous Order Processing System")
    (Printf (Text "Processing started")
      (Now (fun startTime =>
        processAll sem batch
          (Now (fun t =>
            Printf (Elapsed "Total processing time" (t - startTime))
              (Printf (Text "Note: Orders processed sequentially - one after another")
                 Ret)))))).

Definition main (sem : loopvar) : prog := mainOn sem orders.

End SequentialSynchronous.

(** ** 02-goroutines-and-waitgroups/main.go *)
Module GoroutinesAndWaitgroups.

Definition processOrder (order : Order) (k : prog) : prog :=
  Printf (Started (ID order))
    (Sleep (PrepTime order)
      (Printf (Ready (ID order) (PrepTime order)) k)).

(** The order list every scenario spells out. *)
Definition orders : list Order :=
  [ mkOrder 1 (2 * Second); mkOrder 2 (3 * Second); mkOrder 3 (1 * Second);
    mkOrder 4 (4 * Second); mkOrder 5 (2 * Second) ].

Definition sequentialProcessingOn (sem : loopvar) (batch : list Order) : prog :=
  Printf (Text "=== 0. SEQUENTIAL PROCESSING (Original) ===")
    (Now (fun startTime =>
      forRange sem 0 batch
        (fun x k => GetVar x (fun order => processOrder order k))
        (Now (fun t =>
          Printf (Elapsed "Sequential processing time" (t - startTime)) Ret)))).

Definition simpleGoroutine : prog :=
  Printf (Text "=== 1. SIMPLE GOROUTINE ===")
    (let order := mkOrder 1 (2 * Second) in
     Printf (Text "Before starting goroutine")
       (Go (processOrder order Ret)
         (Printf (Text "After starting goroutine - main continues immediately!")
           (Sleep (3 * Second) Ret)))).

Definition multipleGoroutinesOn (sem : loopvar) (batch : list Order) : prog :=
  Printf (Text "=== 2. MULTIPLE GOROUTINES (Concurrent Processing) ===")
    (Now (fun startTime =>
      forRange sem 0 batch
        (fun x k => GetVar x (fun order => Go (processOrder order Ret) k))
        (Sleep (5 * Second)
          (Now (fun t =>
            Printf (Elapsed "Concurrent processing time" (t - startTime)) Ret))))).

(** [go func(o Order) { defer wg.Done(); processOrder(o) }(order)]: the
    argument is evaluated by the coordinator, the goroutine owns [o]. *)
Definition task (o : Order) : prog :=
  Defer (WgDone Ret) (processOrder o Ret).

Definition goroutinesWithWaitGroupOn (sem : loopvar) (batch : list Order) : prog :=
  Printf (Text "=== 3. GOROUTINES WITH WAITGROUP (Proper Sync) ===")
    (Now (fun startTime =>
      forRange sem 0 batch
        (fun x k => WgAdd 1 (GetVar x (fun order => Go (task order) k)))
        (WgWait
          (Printf (Text "Sequential Processing time: 12s")
            (Now (fun t =>
              Printf (Elapsed "Concurrent processing time" (t - startTime))
                Ret)))))).

Definition anonymousGoroutines : prog :=
  Printf (Text "=== 4. ANONYMOUS GOROUTINES ===")
    (WgAdd 1
      (Go (Defer (WgDone Ret)
             (let rushOrder := mkOrder 1 (2 * Second) in
              Printf (Text "Rush Order: Processing immediately!")
                (processOrder rushOrder Ret)))
        (let customerName := "Alice"%string in
         let vipOrder := mkOrder 2 (1 * Second) in
         WgAdd 1
           (Go ((fun (name : string) (order : Order) =>
                   Defer (WgDone Ret)
                     (Printf (VipStarted (ID order) name)
                       (Sleep (PrepTime order)
                         (Printf (VipReady (ID order) name (PrepTime order)) Ret))))
                  customerName vipOrder)
             (WgWait Ret))))).

(** [go func() { defer wg.Done(); processOrder(order) }()]: the closure
    captures the variable [order]; the goroutine evaluates it when it
    reaches the call. *)
Definition capturingTask (x : var) : prog :=
  Defer (WgDone Ret) (GetVar x (fun order => processOrder order Ret)).

Definition goroutineRuntimeInfoOn (sem : loopvar) (batch : list Order) : prog :=
  Printf (Text "=== 5. GOROUTINE RUNTIME INFO ===")
    (NumGoroutine (fun n =>
      Printf (Count "Initial goroutines count" n)
        (forRange sem 0 batch
          (fun x k => WgAdd 1 (Go (capturingTask x) k))
          (NumGoroutine (fun n1 =>
            Printf (Count "After starting order processing, goroutines count" n1)
              (WgWait
                (NumGoroutine (fun n2 =>
                  Printf (Count "Final goroutines count" n2) Ret)))))))).

Definition sequentialProcessing sem := sequentialProcessingOn sem orders.
Definition multipleGoroutines sem := multipleGoroutinesOn sem orders.
Definition goroutinesWithWaitGroup sem := goroutinesWithWaitGroupOn sem orders.
Definition goroutineRuntimeInfo sem := goroutineRuntimeInfoOn sem orders.

(** The scenarios [main] runs, in its order. *)
Definition scenarios (sem : loopvar) : list prog :=
  [ sequentialProcessing sem; simpleGoroutine; multipleGoroutines sem;
    goroutinesWithWaitGroup sem; anonymousGoroutines; goroutineRuntimeInfo sem ].

End GoroutinesAndWaitgroups.

Import GoroutinesAndWaitgroups.

(** ** What an execution shows *)

(** The (id, duration) pairs the tasks report having processed, oldest
    first, and the goroutine that reported each. *)
Definition observation (e : event) : option (nat * (Z * Duration)) :=
  match ev_act e with
  | APrintf (Ready id d) => Some (ev_tid e, (id, d))
  | _ => None
  end.

Definition observed (tr : list event) : list (nat * (Z * Duration)) :=
  rev (omap observation tr).

Definition descriptor (o : Order) : Z * Duration := (ID o, PrepTime o).

(** *** Checks on a trace (newest event first) *)

(** Registrations not yet used by a launch.  [None] when some goroutine was
    launched before its registration, or a goroutine other than the
    coordinator registered. *)
Fixpoint credit (tr : list event) : option nat :=
  match tr with
  | [] => Some 0%nat
  | e :: older =>
      match credit older with
      | None => None
      | Some c =>
          match ev_act e with
          | AAdd delta =>
              if Nat.eqb (ev_tid e) 0 then Some (c + Z.to_nat delta)%nat else None
          | AGo _ => match c with O => None | S c' => Some c' end
          | _ => Some c
          end
      end
  end.

Definition register_before_launch (tr : list event) : bool :=
  match credit tr with Some _ => true | None => false end.

(** The [wg.Done] calls of goroutine [i], and of all goroutines. *)
Fixpoint signals (i : nat) (tr : list event) : nat :=
  match tr with
  | [] => 0
  | e :: older =>
      (match ev_act e with
       | ADone => if Nat.eqb (ev_tid e) i then 1 else 0
       | _ => 0
       end + signals i older)%nat
  end.

Fixpoint count_done (tr : list event) : nat :=
  match tr with
  | [] => 0
  | e :: older =>
      (match ev_act e with ADone => 1 | _ => 0 end + count_done older)%nat
  end.

(** The [wg.Add] calls, weighted by their argument, and the launches. *)
Fixpoint registrations (tr : list event) : Z :=
  match tr with
  | [] => 0
  | e :: older =>
      match ev_act e with AAdd delta => delta | _ => 0 end + registrations older
  end.

Fixpoint launches (tr : list event) : nat :=
  match tr with
  | [] => 0
  | e :: older =>
      (match ev_act e with AGo _ => 1 | _ => 0 end + launches older)%nat
  end.

(** The coordinator called [time.Sleep]. *)
Fixpoint coordinator_sleeps (tr : list event) : bool :=
  match tr with
  | [] => false
  | e :: older =>
      match ev_act e with
      | ASleep _ => Nat.eqb (ev_tid e) 0 || coordinator_sleeps older
      | _ => coordinator_sleeps older
      end
  end.

(** The coordinator returned from [wg.Wait]. *)
Fixpoint awaited (tr : list event) : bool :=
  match tr with
  | [] => false
  | e :: older =>
      match ev_act e with
      | AWait => true
      | _ => awaited older
      end
  end.

(** ** The barrier discipline *)

(** A task body: it prints, sleeps and reads; it does not touch the barrier,
    assign a variable, defer or launch. *)
Inductive plain : prog -> Prop :=
| plain_Ret : plain Ret
| plain_Printf m k : plain k -> plain (Printf m k)
| plain_Sleep d k : plain k -> plain (Sleep d k)
| plain_Now k : (forall t, plain (k t)) -> plain (Now k)
| plain_NumGoroutine k : (forall n, plain (k n)) -> plain (NumGoroutine k)
| plain_GetVar x k : (forall o, plain (k o)) -> plain (GetVar x k).

(** [guarded body] is [go func() { defer wg.Done(); body }()]. *)
Definition guarded (body : prog) : prog := Defer (WgDone Ret) body.

(** The coordinator of a barrier scenario, seen from some point of its code:
    [c] tells whether a registration awaits its launch, [n] counts the
    launches still to come.  It registers, then launches a guarded task; it
    waits once all launches are behind; it never sleeps. *)
Inductive barrier_coordinator : bool -> nat -> prog -> Prop :=
| bc_Ret : barrier_coordinator false 0 Ret
| bc_Printf c n m k :
    barrier_coordinator c n k -> barrier_coordinator c n (Printf m k)
| bc_Now c n k :
    (forall t, barrier_coordinator c n (k t)) -> barrier_coordinator c n (Now k)
| bc_NumGoroutine c n k :
    (forall g, barrier_coordinator c n (k g)) ->
    barrier_coordinator c n (NumGoroutine k)
| bc_SetVar c n x o k :
    barrier_coordinator c n k -> barrier_coordinator c n (SetVar x o k)
| bc_GetVar c n x k :
    (forall o, barrier_coordinator c n (k o)) ->
    barrier_coordinator c n (GetVar x k)
| bc_Add n k :
    barrier_coordinator true n k -> barrier_coordinator false n (WgAdd 1 k)
| bc_Go n body k :
    plain body -> barrier_coordinator false n k ->
    barrier_coordinator true (S n) (Go (guarded body) k)
| bc_Wait k :
    barrier_coordinator false 0 k -> barrier_coordinator false 0 (WgWait k).

(** A goroutine launched by such a coordinator: not started, in its body
    with [wg.Done] deferred, running the deferred call, or returned. *)
Inductive guarded_task : thread -> Prop :=
| gt_fresh body c : plain body -> guarded_task (Thread (guarded body) [] c)
| gt_body body c : plain body -> guarded_task (Thread body [WgDone Ret] c)
| gt_exit c : guarded_task (Thread (WgDone Ret) [] c)
| gt_returned c : guarded_task (Thread Ret [] c).

(** A goroutine owes the barrier one signal until it has returned. *)
Definition owes (t : thread) : nat := if finished t then 0 else 1.

Fixpoint owed (gs : list thread) : nat :=
  match gs with
  | [] => 0
  | t :: rest => owes t + owed rest
  end.

Definition b2n (b : bool) : nat := if b then 1 else 0.

(** [wg.Wait] returned only after [total] signals, one of each task. *)
Fixpoint await_after_signals (total : nat) (tr : list event) : Prop :=
  match tr with
  | [] => True
  | e :: older =>
      (ev_act e = AWait ->
       count_done older = total /\
       forall j, (j < total)%nat -> signals (S j) older = 1%nat) /\
      await_after_signals total older
  end.

(** The invariant of a barrier scenario that launches [total] tasks. *)
Inductive disciplined (total : nat) (s : state) : Prop :=
| Disciplined (c : bool) (n : nat)
    (d_ok : panicked s = false)
    (d_coord : barrier_coordinator c n (code (coordinator s)))
    (d_defers : defers (coordinator s) = [])
    (d_gos : Forall guarded_task (gos s))
    (d_pending : pending s = Z.of_nat (b2n c + owed (gos s)))
    (d_launched : (length (gos s) + n = total)%nat)
    (d_credit : credit (trace s) = Some (b2n c))
    (d_registrations :
       registrations (trace s) = Z.of_nat (b2n c + length (gos s)))
    (d_launches : launches (trace s) = length (gos s))
    (d_drained : awaited (trace s) = true ->
       c = false /\ n = 0%nat /\ owed (gos s) = 0%nat)
    (d_count : (count_done (trace s) + owed (gos s) = length (gos s))%nat)
    (d_signals0 : signals 0 (trace s) = 0%nat)
    (d_signals : forall j, signals (S j) (trace s) =
        match gos s !! j with Some t => (1 - owes t)%nat | None => 0%nat end)
    (d_nosleep : coordinator_sleeps (trace s) = false)
    (d_await : await_after_signals total (trace s)).

(** ** Scenarios, executions and invariants the theorems are about *)

(** The actions of a task body: they change neither the barrier nor the
    set of goroutines. *)
Definition quiet (a : action) : bool :=
  match a with
  | APrintf _ | ASleep _ | ADefer => true
  | _ => false
  end.

(** The scenarios that synchronise on the barrier. *)
Definition barrier_scenarios (sem : loopvar) (batch : list Order) : list prog :=
  [ goroutinesWithWaitGroupOn sem batch; anonymousGoroutines;
    goroutineRuntimeInfoOn sem batch ].

(** One execution of [goroutinesWithWaitGroup]: each task runs as soon as it
    is launched. *)
Definition wg_schedule : list nat :=
  ([0; 0] ++ flat_map (fun j => [0; 0; 0; 0] ++ repeat j 6) [1; 2; 3; 4; 5]
   ++ [0; 0; 0; 0])%nat.

Definition wg_final : state :=
  match run wg_schedule (init (goroutinesWithWaitGroup SharedVar)) with
  | Some s => s
  | None => init Ret
  end.

(** A coordinator that never touches the barrier; [b] tells whether it may
    launch goroutines. *)
Inductive unsynchronised (b : bool) : prog -> Prop :=
| us_Ret : unsynchronised b Ret
| us_Printf m k : unsynchronised b k -> unsynchronised b (Printf m k)
| us_Sleep d k : unsynchronised b k -> unsynchronised b (Sleep d k)
| us_Now k : (forall t, unsynchronised b (k t)) -> unsynchronised b (Now k)
| us_NumGoroutine k :
    (forall g, unsynchronised b (k g)) -> unsynchronised b (NumGoroutine k)
| us_SetVar x o k : unsynchronised b k -> unsynchronised b (SetVar x o k)
| us_GetVar x k : (forall o, unsynchronised b (k o)) -> unsynchronised b (GetVar x k)
| us_Go body k :
    b = true -> plain body -> unsynchronised b k -> unsynchronised b (Go body k).

(** An event of the barrier or of a deferred call. *)
Definition barrier_event (e : event) : bool :=
  match ev_act e with
  | AAdd _ | ADone | AWait | ADefer | APanic => true
  | _ => false
  end.

Definition bare_task (t : thread) : Prop := plain (code t) /\ defers t = [].

Inductive unsync_state (b : bool) (s : state) : Prop :=
| Unsync
    (u_ok : panicked s = false)
    (u_coord : unsynchronised b (code (coordinator s)))
    (u_defers : defers (coordinator s) = [])
    (u_gos : Forall bare_task (gos s))
    (u_events : existsb barrier_event (trace s) = false)
    (u_pending : pending s = 0)
    (u_launches : launches (trace s) = length (gos s))
    (u_alone : b = false -> gos s = []).


(** One execution of [simpleGoroutine]: the coordinator runs to its end
    before the goroutine starts. *)
Definition simple_final : state :=
  match run [0; 0; 0; 0; 0]%nat (init simpleGoroutine) with
  | Some s => s
  | None => init Ret
  end.


Inductive barrier_op := Register | Signal.

Definition apply_op (op : barrier_op) (pending : Z) : option Z :=
  match op with
  | Register => WaitGroup.Add 1 pending
  | Signal => WaitGroup.Done pending
  end.

(** The counter after a sequence of calls, [None] once a call is refused. *)
Fixpoint issue (ops : list barrier_op) (pending : Z) : option Z :=
  match ops with
  | [] => Some pending
  | op :: rest =>
      match apply_op op pending with
      | Some c => issue rest c
      | None => None
      end
  end.

Fixpoint balance (ops : list barrier_op) : Z :=
  match ops with
  | [] => 0
  | Register :: rest => 1 + balance rest
  | Signal :: rest => balance rest - 1
  end.

(** The events of a function that runs alone, launches nothing and does not
    use the barrier, from the store [vs] and the time [clk]. *)
Fixpoint seq_events (p : prog) (vs : var -> Order) (clk : Z) : list event :=
  match p with
  | Printf m k => Ev 0 (APrintf m) :: seq_events k vs clk
  | Sleep d k => Ev 0 (ASleep d) :: seq_events k vs (clk + Z.max 0 d)
  | Now k => seq_events (k clk) vs clk
  | NumGoroutine k => seq_events (k 1) vs clk
  | SetVar x o k => seq_events k (fun y => if Nat.eqb y x then o else vs y) clk
  | GetVar x k => seq_events (k (vs x)) vs clk
  | _ => []
  end.

(** What one call of [processOrder] does. *)
Definition invocation (o : Order) : list event :=
  [ Ev 0 (APrintf (Started (ID o)));
    Ev 0 (ASleep (PrepTime o));
    Ev 0 (APrintf (Ready (ID o) (PrepTime o))) ].

(** The time a list of orders takes when processed one after another. *)
Definition total_time (batch : list Order) : Z :=
  fold_right (fun o acc => Z.max 0 (PrepTime o) + acc) 0 batch.

(** The output of [main] around the loop. *)
Definition main_header : list event :=
  [ Ev 0 (APrintf (Text "Sequential Synchronous Order Processing System"));
    Ev 0 (APrintf (Text "Processing started")) ].

Definition main_footer (batch : list Order) : list event :=
  [ Ev 0 (APrintf (Elapsed "Total processing time" (total_time batch)));
    Ev 0 (APrintf (Text "Note: Orders processed sequentially - one after another")) ].

Definition main_events (batch : list Order) : list event :=
  main_header ++ flat_map invocation batch ++ main_footer batch.

(** The execution of the sequential [main] on its literal order list. *)
Definition seq_final : state :=
  match run (repeat 0%nat 31) (init (SequentialSynchronous.main SharedVar)) with
  | Some s => s
  | None => init Ret
  end.

(** An execution of [goroutineRuntimeInfo]: the coordinator finishes its
    loop before the first task reads [order]. *)
Definition capture_schedule : list nat :=
  (repeat 0 18 ++ flat_map (fun j => repeat j 7) [1; 2; 3; 4; 5] ++ repeat 0 5)%nat.

(** The time a batch takes when its orders are processed at the same time:
    the longest of the delays. *)
Definition span (batch : list Order) : Z :=
  fold_right (fun o acc => Z.max (Z.max 0 (PrepTime o)) acc) 0 batch.

(** The body of the loop and the code after the loop. *)
Definition wgBody (x : var) (k : prog) : prog :=
  WgAdd 1 (GetVar x (fun order => Go (task order) k)).

Definition wgTail (startTime : Z) : prog :=
  WgWait
    (Printf (Text "Sequential Processing time: 12s")
      (Now (fun t =>
        Printf (Elapsed "Concurrent processing time" (t - startTime)) Ret))).

(** The points of the coordinator's code: [i] is the index of the current
    iteration, [o] its order. *)
Inductive wg_pc :=
| PcStart | PcNow
| PcLoop (i : nat)
| PcAdd (i : nat) (o : Order)
| PcArg (i : nat) (o : Order)
| PcGo (i : nat) (o : Order)
| PcSeq | PcNow2 | PcElapsed | PcEnd.

Definition wg_code (sem : loopvar) (batch : list Order) (pc : wg_pc) : prog :=
  match pc with
  | PcStart => goroutinesWithWaitGroupOn sem batch
  | PcNow => Now (fun st => forRange sem 0 batch wgBody (wgTail st))
  | PcLoop i => forRange sem i (drop i batch) wgBody (wgTail 0)
  | PcAdd i o =>
      wgBody (slot sem i) (forRange sem (S i) (drop (S i) batch) wgBody (wgTail 0))
  | PcArg i o =>
      GetVar (slot sem i) (fun order =>
        Go (task order) (forRange sem (S i) (drop (S i) batch) wgBody (wgTail 0)))
  | PcGo i o =>
      Go (task o) (forRange sem (S i) (drop (S i) batch) wgBody (wgTail 0))
  | PcSeq =>
      Printf (Text "Sequential Processing time: 12s")
        (Now (fun t => Printf (Elapsed "Concurrent processing time" (t - 0)) Ret))
  | PcNow2 =>
      Now (fun t => Printf (Elapsed "Concurrent processing time" (t - 0)) Ret)
  | PcElapsed =>
      Printf (Elapsed "Concurrent processing time" (span batch - 0)) Ret
  | PcEnd => Ret
  end.

(** What holds of the state at each point. *)
Definition wg_pc_ok (sem : loopvar) (batch : list Order) (pc : wg_pc)
    (s : state) : Prop :=
  match pc with
  | PcStart | PcNow =>
      length (gos s) = 0%nat /\ clock (coordinator s) = 0
  | PcLoop i =>
      length (gos s) = i /\ (i <= length batch)%nat /\ clock (coordinator s) = 0
  | PcAdd i o | PcArg i o =>
      length (gos s) = i /\ batch !! i = Some o /\ vars s (slot sem i) = o /\
      clock (coordinator s) = 0
  | PcGo i o =>
      length (gos s) = i /\ batch !! i = Some o /\ clock (coordinator s) = 0
  | PcSeq | PcNow2 | PcElapsed =>
      length (gos s) = length batch /\ clock (coordinator s) = span batch
  | PcEnd =>
      length (gos s) = length batch /\
      In (Ev 0 (APrintf (Elapsed "Concurrent processing time" (span batch))))
         (trace s)
  end.

(** The states of the goroutine that runs [task o], in order. *)
Definition task_thread (o : Order) (phase : nat) : thread :=
  let ready := Printf (Ready (ID o) (PrepTime o)) Ret in
  let finish := 0 + Z.max 0 (PrepTime o) in
  match phase with
  | 0%nat => Thread (task o) [] 0
  | 1%nat => Thread (processOrder o Ret) [WgDone Ret] 0
  | 2%nat => Thread (Sleep (PrepTime o) ready) [WgDone Ret] 0
  | 3%nat => Thread ready [WgDone Ret] finish
  | 4%nat => Thread Ret [WgDone Ret] finish
  | 5%nat => Thread (WgDone Ret) [] finish
  | _ => Thread Ret [] finish
  end.

Definition runs_task (o : Order) (t : thread) : Prop :=
  exists phase, t = task_thread o phase.

(** An action of the task that processes [o] shows the id and the duration
    of [o]. *)
Definition shows (o : Order) (a : action) : Prop :=
  match a with
  | APrintf (Started id) => id = ID o
  | APrintf (Ready id d) => id = ID o /\ d = PrepTime o
  | APrintf _ => False
  | ASleep d => d = PrepTime o
  | _ => True
  end.

(** An event of goroutine [S j] shows order [j] of the batch. *)
Definition shows_own (batch : list Order) (e : event) : Prop :=
  match ev_tid e with
  | O => True
  | S j =>
      match batch !! j with
      | Some o => shows o (ev_act e)
      | None => False
      end
  end.

(** An elapsed time, when printed, is the span of the batch. *)
Definition elapsed_is_span (batch : list Order) (e : event) : Prop :=
  match ev_act e with
  | APrintf (Elapsed _ d) => d = span batch
  | _ => True
  end.

(** The task has printed its completion message. *)
Definition reported (t : thread) : bool :=
  match code t with
  | Ret | WgDone _ => true
  | _ => false
  end.

(** The orders whose task has printed its completion message. *)
Fixpoint reported_by (batch : list Order) (gs : list thread)
    : list (Z * Duration) :=
  match batch, gs with
  | o :: batch', t :: gs' =>
      (if reported t then [descriptor o] else []) ++ reported_by batch' gs'
  | _, _ => []
  end.

Inductive wg_state (sem : loopvar) (batch : list Order) (s : state) : Prop :=
| WgState (pc : wg_pc)
    (w_code : code (coordinator s) = wg_code sem batch pc)
    (w_pc : wg_pc_ok sem batch pc s)
    (w_gos : Forall2 runs_task (take (length (gos s)) batch) (gos s))
    (w_clock_lo : 0 <= wg_clock s)
    (w_clock_hi : wg_clock s <= span batch)
    (w_done : forall (j : nat) t,
        gos s !! j = Some t -> finished t = true -> clock t <= wg_clock s)
    (w_shows : Forall (shows_own batch) (trace s))
    (w_elapsed : Forall (elapsed_is_span batch) (trace s))
    (w_reports :
       Permutation (map snd (observed (trace s))) (reported_by batch (gos s))).

(** ** Further executions and outputs *)

(** The complete execution of [goroutineRuntimeInfo] in which the
    coordinator finishes its loop before the first task runs. *)
Definition info_final (sem : loopvar) : state :=
  match run capture_schedule (init (goroutineRuntimeInfo sem)) with
  | Some s => s
  | None => init Ret
  end.

(** A complete execution of [anonymousGoroutines]: both goroutines are
    launched, the rush order runs, then the VIP order, then the coordinator
    passes [wg.Wait]. *)
Definition anon_schedule : list nat :=
  (repeat 0 5 ++ repeat 1 7 ++ repeat 2 6 ++ [0])%nat.

Definition anon_final : state :=
  match run anon_schedule (init anonymousGoroutines) with
  | Some s => s
  | None => init Ret
  end.

(** The output of [sequentialProcessing] over a list of orders. *)
Definition sequentialProcessing_events (batch : list Order) : list event :=
  Ev 0 (APrintf (Text "=== 0. SEQUENTIAL PROCESSING (Original) ==="))
  :: flat_map invocation batch
  ++ [ Ev 0 (APrintf (Elapsed "Sequential processing time" (total_time batch))) ].

(** The complete execution of [sequentialProcessing] on its order list. *)
Definition seqproc_final : state :=
  match run (repeat 0%nat 29) (init (sequentialProcessing SharedVar)) with
  | Some s => s
  | None => init Ret
  end.

(** ** [goroutineRuntimeInfo], point by point *)

(** The coordinator of [goroutineRuntimeInfo], seen from some point of its
    code: [i] is the number of tasks launched so far, [b] tells whether the
    loop variable of iteration [i] is assigned and its task not yet
    launched.  Iteration [i] assigns order [i] to its variable, then
    registers, then launches a closure over that variable; the coordinator
    prints no completion message of its own. *)
Inductive captures (sem : loopvar) (batch : list Order) : nat -> bool -> prog -> Prop :=
| cp_Ret i : captures sem batch i false Ret
| cp_Printf i b m k :
    observation (Ev 0 (APrintf m)) = None ->
    captures sem batch i b k -> captures sem batch i b (Printf m k)
| cp_NumGoroutine i b k :
    (forall g, captures sem batch i b (k g)) ->
    captures sem batch i b (NumGoroutine k)
| cp_Wait i b k :
    captures sem batch i b k -> captures sem batch i b (WgWait k)
| cp_SetVar i o k :
    batch !! i = Some o -> captures sem batch i true k ->
    captures sem batch i false (SetVar (slot sem i) o k)
| cp_Add i k :
    captures sem batch i true k -> captures sem batch i true (WgAdd 1 k)
| cp_Go i k :
    captures sem batch (S i) false k ->
    captures sem batch i true (Go (capturingTask (slot sem i)) k).

(** The states of a goroutine once it has read the order [o] it processes. *)
Inductive serving (o : Order) : thread -> Prop :=
| sv_start c : serving o (Thread (processOrder o Ret) [WgDone Ret] c)
| sv_sleep c :
    serving o (Thread (Sleep (PrepTime o)
                         (Printf (Ready (ID o) (PrepTime o)) Ret))
                 [WgDone Ret] c)
| sv_ready c :
    serving o (Thread (Printf (Ready (ID o) (PrepTime o)) Ret) [WgDone Ret] c)
| sv_ret c : serving o (Thread Ret [WgDone Ret] c)
| sv_exit c : serving o (Thread (WgDone Ret) [] c)
| sv_returned c : serving o (Thread Ret [] c).

(** All the events of goroutine [S j] show order [o]. *)
Definition shown_by (j : nat) (o : Order) (tr : list event) : Prop :=
  forall e, In e tr -> ev_tid e = S j -> shows o (ev_act e).

(** Goroutine [S j] of [goroutineRuntimeInfo]: not started; or with
    [wg.Done] deferred and the loop variable not read yet; or processing the
    order [i] it has read from the variable, which is order [j] itself when
    each iteration has its own variable.  With one variable for the whole
    loop the read races with the assignments of the later iterations; a read
    is one step here, so that [i] is then [j] or a later index: the theorems
    use the invariant for a variable per iteration only. *)
Inductive capturing_task (sem : loopvar) (batch : list Order) (j : nat)
    (t : thread) (tr : list event) : Prop :=
| ct_fresh c :
    t = Thread (capturingTask (slot sem j)) [] c ->
    (forall e, In e tr -> ev_tid e <> S j) ->
    capturing_task sem batch j t tr
| ct_deferred c :
    t = Thread (GetVar (slot sem j) (fun order => processOrder order Ret))
               [WgDone Ret] c ->
    (forall e, In e tr -> ev_tid e = S j -> ev_act e = ADefer) ->
    capturing_task sem batch j t tr
| ct_serving (i : nat) o :
    (j <= i)%nat -> batch !! i = Some o -> (sem = PerIteration -> i = j) ->
    serving o t -> shown_by j o tr ->
    capturing_task sem batch j t tr.

Inductive info_state (sem : loopvar) (batch : list Order) (s : state) : Prop :=
| InfoState (b : bool)
    (i_coord : captures sem batch (length (gos s)) b (code (coordinator s)))
    (i_vars : forall j, (j < length (gos s) + b2n b)%nat ->
        exists (i : nat) o,
          (j <= i < length (gos s) + b2n b)%nat /\ batch !! i = Some o /\
          vars s (slot sem j) = o /\ (sem = PerIteration -> i = j))
    (i_tids : Forall (fun e => (ev_tid e <= length (gos s))%nat) (trace s))
    (i_tasks : forall (j : nat) t,
        gos s !! j = Some t -> capturing_task sem batch j t (trace s))
    (i_reports : sem = PerIteration ->
        Permutation (map snd (observed (trace s))) (reported_by batch (gos s))).

(** ** The scenarios that launch and do not wait *)








(** A complete execution of [multipleGoroutines]: the coordinator runs to
    its end, then the tasks run one after the other. *)
Definition multiple_schedule : list nat :=
  (repeat 0 20 ++ flat_map (fun j => repeat j 3) [1; 2; 3; 4; 5])%nat.

Definition multiple_complete (sem : loopvar) : state :=
  match run multiple_schedule (init (multipleGoroutines sem)) with
  | Some s => s
  | None => init Ret
  end.

(** ** Proofs *)

Lemma owed_app gs t : owed (gs ++ [t]) = (owed gs + owes t)%nat.
Proof. induction gs as [|u gs IH]; simpl; lia. Qed.

Lemma owed_insert gs j t t' :
  gs !! j = Some t -> (owed (<[j:=t']> gs) + owes t = owed gs + owes t')%nat.
Proof.
  revert j. induction gs as [|u gs IH]; intros [|j] Hj; simpl in *; try discriminate.
  - injection Hj as ->. lia.
  - specialize (IH _ Hj). lia.
Qed.

Lemma owed_zero gs j t : owed gs = 0%nat -> gs !! j = Some t -> owes t = 0%nat.
Proof.
  revert j. induction gs as [|u gs IH]; intros [|j] H0 Hj; simpl in *; try discriminate.
  - injection Hj as ->. lia.
  - apply (IH j); [lia | exact Hj].
Qed.

Lemma owes_le_1 t : (owes t <= 1)%nat.
Proof. unfold owes. destruct (finished t); lia. Qed.

Lemma run_app sched1 sched2 s :
  run (sched1 ++ sched2) s =
  match run sched1 s with Some s' => run sched2 s' | None => None end.
Proof.
  revert s. induction sched1 as [|i sched1 IH]; intros s; simpl; [reflexivity|].
  destruct (step i s); [apply IH | reflexivity].
Qed.

(** An invariant of the steps holds in every reachable state. *)
Lemma reachable_ind (P : state -> Prop) (p : prog) :
  P (init p) ->
  (forall i s s', P s -> step i s = Some s' -> P s') ->
  forall s, reachable p s -> P s.
Proof.
  intros H0 Hstep s [sched Hrun]. revert s Hrun.
  induction sched as [|i sched IH] using rev_ind; intros s Hrun.
  - injection Hrun as <-. exact H0.
  - rewrite run_app in Hrun. destruct (run sched (init p)) as [s1|] eqn:E1; [|discriminate].
    simpl in Hrun. destruct (step i s1) as [s2|] eqn:E2; [|discriminate].
    injection Hrun as <-. eapply Hstep; [apply IH; reflexivity | exact E2].
Qed.

(** Closes the parts of the invariant a step leaves as they were. *)
Ltac keep_invariant :=
  simpl; eauto;
  try match goal with
      | H : credit ?tr = Some _ |- context [credit ?tr] => rewrite H; simpl
      end;
  try reflexivity;
  try (split; [discriminate | assumption]);
  try (unfold b2n in *; lia).

Lemma owes_deferred b d ds c : owes (Thread b (d :: ds) c) = 1%nat.
Proof. destruct b; reflexivity. Qed.

Lemma signals_insert (gs : list thread) (j : nat) t t' tr :
  gs !! j = Some t -> owes t' = owes t ->
  (forall i, signals (S i) tr =
     match gs !! i with Some u => (1 - owes u)%nat | None => 0%nat end) ->
  forall i, signals (S i) tr =
     match <[j:=t']> gs !! i with Some u => (1 - owes u)%nat | None => 0%nat end.
Proof.
  intros Ht Ho Hsg i. destruct (decide (i = j)) as [->|Hne].
  - rewrite list_lookup_insert_eq by (eapply lookup_lt_Some; eassumption).
    rewrite Hsg, Ht, Ho. reflexivity.
  - rewrite list_lookup_insert_ne by congruence. apply Hsg.
Qed.

Lemma barrier_coordinator_credit n p : barrier_coordinator true n p -> (1 <= n)%nat.
Proof.
  intros H. remember true as c eqn:Hc. revert Hc.
  induction H; intros Hc; try discriminate; auto; try lia.
  - apply (H0 0); assumption.
  - apply (H0 0); assumption.
  - apply (H0 zeroOrder); assumption.
Qed.

(** A goroutine step inside the task body preserves the invariant. *)
Lemma quiet_step total co (gs : list thread) p wc vs tr (j : nat) t t' tr' :
  disciplined total (State co gs p wc vs tr false) ->
  gs !! j = Some t -> guarded_task t' -> owes t' = owes t ->
  (tr' = tr \/ exists a, quiet a = true /\ tr' = Ev (S j) a :: tr) ->
  disciplined total (State co (<[j:=t']> gs) p wc vs tr' false).
Proof.
  intros [c n Hok Hco Hde Hgo Hpe Hla Hcr Hre Hlc Hdr Hcn Hs0 Hsg Hns Haw]
    Ht Hg Ho Htr.
  simpl in *.
  pose proof (owed_insert gs j t t' Ht) as Hins.
  assert (Hsame : forall P : list event -> Prop, P tr ->
            (forall a, quiet a = true -> P (Ev (S j) a :: tr)) -> P tr').
  { intros P H1 H2. destruct Htr as [->|(a & Ha & ->)]; auto. }
  apply (Disciplined _ _ c n); simpl; rewrite ?length_insert; auto.
  - apply Forall_insert; assumption.
  - rewrite Hpe. f_equal. lia.
  - apply Hsame; [assumption|]. intros a Ha. simpl. rewrite Hcr.
    destruct a; try discriminate; reflexivity.
  - apply Hsame; [assumption|]. intros a Ha. simpl.
    destruct a; try discriminate; simpl; assumption.
  - apply Hsame; [assumption|]. intros a Ha. simpl.
    destruct a; try discriminate; simpl; assumption.
  - assert (Hd : awaited tr' = true -> awaited tr = true).
    { apply Hsame; [auto|]. intros a Ha. simpl.
      destruct a; try discriminate; auto. }
    intros Hw. destruct (Hdr (Hd Hw)) as (-> & -> & H0). repeat split. lia.
  - apply Hsame; [lia|]. intros a Ha. simpl.
    destruct a; try discriminate; simpl; lia.
  - apply Hsame; [assumption|]. intros a Ha. simpl.
    destruct a; try discriminate; simpl; assumption.
  - apply Hsame.
    + apply (signals_insert gs j t t' tr Ht Ho Hsg).
    + intros a Ha i. pose proof (signals_insert gs j t t' tr Ht Ho Hsg i) as Hi.
      simpl. destruct a; try discriminate; simpl; exact Hi.
  - apply Hsame; [assumption|]. intros a Ha. simpl.
    destruct a; try discriminate; simpl; assumption.
  - apply Hsame; [assumption|]. intros a Ha. simpl.
    split; [|assumption]. intros ->. discriminate.
Qed.

Ltac quiet_case :=
  eapply quiet_step;
  [ eassumption | eassumption
  | constructor; auto
  | rewrite ?owes_deferred; reflexivity
  | (left; reflexivity) || (right; eexists; split; [|reflexivity]; reflexivity) ].

(** Every step of a disciplined state leads to a disciplined state. *)
Lemma disciplined_step total i s s' :
  disciplined total s -> step i s = Some s' -> disciplined total s'.
Proof.
  intros [c n Hok Hco Hde Hgo Hpe Hla Hcr Hre Hlc Hdr Hcn Hs0 Hsg Hns Haw] Hstep.
  unfold step in Hstep. rewrite Hok in Hstep.
  destruct s as [[cc cd ck] gs p wc vs tr pk]; simpl in *. subst cd pk p total.
  destruct i as [|j]; simpl in Hstep.
  - inversion Hco; subst; simpl in Hstep; try discriminate.
    all: try (injection Hstep as <-).
    + econstructor; keep_invariant.
    + econstructor; keep_invariant.
    + econstructor; keep_invariant.
    + econstructor; keep_invariant.
    + econstructor; keep_invariant.
    + unfold wg_add, WaitGroup.Add; simpl.
      destruct (Z.ltb_spec (Z.of_nat (owed gs) + 1) 0) as [Hneg|_]; [lia|].
      apply (Disciplined _ _ true n); keep_invariant.
      intros Hw. destruct (Hdr Hw) as (_ & -> & _).
      match goal with H : barrier_coordinator true 0 _ |- _ =>
        apply barrier_coordinator_credit in H; lia end.
    + unfold b2n in *.
      apply (Disciplined _ _ false n0); keep_invariant.
      * apply Forall_app; split; [assumption|].
        repeat constructor; assumption.
      * rewrite owed_app; unfold owes; simpl; lia.
      * rewrite length_app; simpl; lia.
      * rewrite length_app; simpl; lia.
      * rewrite length_app; simpl; lia.
      * intros Hw. destruct (Hdr Hw) as (? & ? & _); discriminate.
      * rewrite owed_app, length_app; unfold owes; simpl; lia.
      * intros j. rewrite Hsg. destruct (lt_dec j (length gs)) as [Hlt|Hge].
        -- rewrite lookup_app_l by assumption. reflexivity.
        -- rewrite (lookup_ge_None_2 gs j) by lia.
           rewrite lookup_app_r by lia.
           destruct (j - length gs)%nat as [|[|d]]; reflexivity.
    + destruct (WaitGroup.Wait _) eqn:Hw; [|discriminate].
      injection Hstep as <-. unfold WaitGroup.Wait in Hw.
      apply Z.eqb_eq in Hw. simpl in Hw.
      assert (H0 : owed gs = 0%nat) by lia.
      apply (Disciplined _ _ false 0%nat); keep_invariant.
      split; [|assumption]. intros _. split; [lia|].
      intros j Hj. rewrite Hsg.
      destruct (lookup_lt_is_Some_2 gs j) as [t Ht]; [lia|].
      rewrite Ht, (owed_zero _ _ _ H0 Ht). reflexivity.
  - destruct (gs !! j) as [t|] eqn:Ht; [|discriminate].
    pose proof (Forall_lookup_1 _ _ _ _ Hgo Ht) as Hg.
    assert (Hinv : disciplined (length gs + n)
              (State (Thread cc [] ck) gs (Z.of_nat (b2n c + owed gs)) wc vs tr false)).
    { apply (Disciplined _ _ c n); simpl; auto. }
    inversion Hg; subst; simpl in Hstep.
    + injection Hstep as <-. unfold emit, set_thread; simpl. quiet_case.
    + match goal with H : plain _ |- _ => inversion H; subst end;
        simpl in Hstep; injection Hstep as <-; unfold emit, set_thread; simpl;
        quiet_case.
    + injection Hstep as <-. unfold wg_add, WaitGroup.Add; simpl.
      pose proof (owed_insert gs j _ (Thread Ret [] c0) Ht) as Hins.
      unfold owes in Hins; simpl in Hins.
      destruct (Z.ltb_spec (Z.of_nat (b2n c + owed gs) + -1) 0) as [Hneg|_]; [lia|].
      apply (Disciplined _ _ c n); keep_invariant; rewrite ?length_insert; try lia.
      * apply Forall_insert; [assumption | constructor].
      * intros Hw. destruct (Hdr Hw) as (? & ? & ?). lia.
      * intros i. simpl. destruct (Nat.eqb_spec j i) as [->|Hne].
        -- rewrite list_lookup_insert_eq by (eapply lookup_lt_Some; eassumption).
           rewrite Hsg, Ht. reflexivity.
        -- rewrite list_lookup_insert_ne by congruence. apply Hsg.
    + discriminate.
Qed.

Lemma disciplined_init total p :
  barrier_coordinator false total p -> disciplined total (init p).
Proof.
  intros H. apply (Disciplined _ _ false total); simpl; auto; try discriminate.
Qed.

Lemma disciplined_reachable total p s :
  barrier_coordinator false total p -> reachable p s -> disciplined total s.
Proof.
  intros Hp. apply reachable_ind.
  - apply disciplined_init, Hp.
  - intros i s1 s2 H1 H2. exact (disciplined_step _ _ _ _ H1 H2).
Qed.

(** *** The barrier scenarios follow the discipline *)

Lemma plain_processOrder o k : plain k -> plain (processOrder o k).
Proof. intros H. repeat constructor. exact H. Qed.

Lemma forRange_coordinator sem body k n batch :
  (forall x k' m, barrier_coordinator false m k' ->
                  barrier_coordinator false (S m) (body x k')) ->
  barrier_coordinator false n k ->
  forall i, barrier_coordinator false (length batch + n) (forRange sem i batch body k).
Proof.
  intros Hbody Hk. induction batch as [|o rest IH]; intros i; simpl.
  - exact Hk.
  - constructor. apply Hbody, IH.
Qed.

Lemma goroutinesWithWaitGroupOn_coordinator sem batch :
  barrier_coordinator false (length batch) (goroutinesWithWaitGroupOn sem batch).
Proof.
  unfold goroutinesWithWaitGroupOn. constructor. constructor. intros st.
  rewrite <- (Nat.add_0_r (length batch)). apply forRange_coordinator.
  - intros x k m Hk. constructor. constructor. intros o.
    constructor; [|exact Hk]. apply plain_processOrder. constructor.
  - repeat constructor.
Qed.

Lemma goroutineRuntimeInfoOn_coordinator sem batch :
  barrier_coordinator false (length batch) (goroutineRuntimeInfoOn sem batch).
Proof.
  unfold goroutineRuntimeInfoOn. constructor. constructor. intros g. constructor.
  rewrite <- (Nat.add_0_r (length batch)). apply forRange_coordinator.
  - intros x k m Hk. constructor. constructor; [|exact Hk].
    constructor. intros o. apply plain_processOrder. constructor.
  - repeat constructor.
Qed.

Lemma anonymousGoroutines_coordinator :
  barrier_coordinator false 2 anonymousGoroutines.
Proof.
  unfold anonymousGoroutines. repeat constructor.
Qed.

Lemma barrier_scenarios_coordinator sem batch p :
  In p (barrier_scenarios sem batch) ->
  exists total, barrier_coordinator false total p.
Proof.
  intros [<-|[<-|[<-|[]]]].
  - eexists. apply goroutinesWithWaitGroupOn_coordinator.
  - eexists. apply anonymousGoroutines_coordinator.
  - eexists. apply goroutineRuntimeInfoOn_coordinator.
Qed.

Lemma await_after_signals_split total newer e older :
  await_after_signals total (newer ++ e :: older) ->
  ev_act e = AWait ->
  count_done older = total /\
  forall j, (j < total)%nat -> signals (S j) older = 1%nat.
Proof.
  induction newer as [|e' newer IH]; simpl; intros [H1 H2] He.
  - exact (H1 He).
  - exact (IH H2 He).
Qed.

Lemma credit_adds_by_coordinator tr c e delta :
  credit tr = Some c -> In e tr -> ev_act e = AAdd delta -> ev_tid e = 0%nat.
Proof.
  revert c. induction tr as [|e' tr IH]; intros c Hc Hin He; [destruct Hin|].
  simpl in Hc. destruct (credit tr) as [c'|] eqn:Hc'; [|discriminate].
  destruct Hin as [->|Hin]; [|exact (IH _ eq_refl Hin He)].
  rewrite He in Hc. destruct (Nat.eqb_spec (ev_tid e) 0); [assumption|discriminate].
Qed.

Lemma owes_finished t : owes t = if finished t then 0%nat else 1%nat.
Proof. reflexivity. Qed.

(** C1.  In [goroutinesWithWaitGroup], for a batch of any length and under
    every schedule, when [wg.Wait] returns all the [wg.Done] calls have been
    made: as many as there are tasks, exactly one by each launched task. *)
Theorem await_not_before_all_signals sem batch s newer older :
  reachable (goroutinesWithWaitGroupOn sem batch) s ->
  trace s = newer ++ Ev 0 AWait :: older ->
  count_done older = length batch /\
  forall j, (j < length batch)%nat -> signals (S j) older = 1%nat.
Proof.
  intros Hr Htr.
  pose proof (disciplined_reachable _ _ _
                (goroutinesWithWaitGroupOn_coordinator sem batch) Hr) as Hd.
  destruct Hd. rewrite Htr in d_await.
  exact (await_after_signals_split _ _ _ _ d_await eq_refl).
Qed.

Lemma await_not_before_all_signals_witness :
  count_done (skipn 3 (trace wg_final)) = 5%nat /\
  forall j, (j < 5)%nat -> signals (S j) (skipn 3 (trace wg_final)) = 1%nat.
Proof.
  apply (await_not_before_all_signals SharedVar orders wg_final
           (firstn 2 (trace wg_final)) (skipn 3 (trace wg_final))).
  - exists wg_schedule. vm_compute. reflexivity.
  - vm_compute. reflexivity.
Defined.

(** C4.  In [goroutinesWithWaitGroup] the counter is never negative (and
    [wg.Done] never panics): it is the registrations minus the signals; every
    registration is made by the coordinator, before the launch it stands for;
    the coordinator never signals and each task signals exactly once, when it
    completes. *)
Theorem pending_never_negative sem batch s :
  reachable (goroutinesWithWaitGroupOn sem batch) s ->
  0 <= pending s /\
  panicked s = false /\
  pending s = registrations (trace s) - Z.of_nat (count_done (trace s)) /\
  register_before_launch (trace s) = true /\
  (forall e delta, In e (trace s) -> ev_act e = AAdd delta -> ev_tid e = 0%nat) /\
  signals 0 (trace s) = 0%nat /\
  (forall j, signals (S j) (trace s) =
     match gos s !! j with
     | Some t => if finished t then 1%nat else 0%nat
     | None => 0%nat
     end).
Proof.
  intros Hr.
  destruct (disciplined_reachable _ _ _
              (goroutinesWithWaitGroupOn_coordinator sem batch) Hr).
  repeat split; auto.
  - lia.
  - lia.
  - unfold register_before_launch. rewrite d_credit. reflexivity.
  - intros e delta. apply (credit_adds_by_coordinator _ _ _ _ d_credit).
  - intros j. rewrite d_signals. destruct (gos s !! j) as [t|]; [|reflexivity].
    rewrite owes_finished. destruct (finished t); reflexivity.
Qed.

Lemma pending_never_negative_witness :
  0 <= pending wg_final /\
  panicked wg_final = false /\
  pending wg_final =
    registrations (trace wg_final) - Z.of_nat (count_done (trace wg_final)) /\
  register_before_launch (trace wg_final) = true /\
  (forall e delta, In e (trace wg_final) -> ev_act e = AAdd delta ->
                   ev_tid e = 0%nat) /\
  signals 0 (trace wg_final) = 0%nat /\
  (forall j, signals (S j) (trace wg_final) =
     match gos wg_final !! j with
     | Some t => if finished t then 1%nat else 0%nat
     | None => 0%nat
     end).
Proof.
  apply (pending_never_negative SharedVar orders wg_final).
  exists wg_schedule. vm_compute. reflexivity.
Defined.

(** A launched task is never stuck: until it has returned it can take its
    next step. *)
Lemma guarded_task_progress total s (j : nat) t :
  disciplined total s -> gos s !! j = Some t -> finished t = false ->
  exists s', step (S j) s = Some s'.
Proof.
  intros Hd Ht Hf. destruct Hd.
  pose proof (Forall_lookup_1 _ _ _ _ d_gos Ht) as Hg.
  unfold step. rewrite d_ok. simpl. rewrite Ht.
  inversion Hg; subst; simpl in *; eauto; try discriminate.
  match goal with H : plain _ |- _ => inversion H; subst end; simpl; eauto.
Qed.



(** ** Scenarios without the barrier *)

Lemma unsync_step b i s s' :
  unsync_state b s -> step i s = Some s' -> unsync_state b s'.
Proof.
  intros [Hok Hco Hde Hgo Hev Hpe Hla Hal] Hstep.
  unfold step in Hstep. rewrite Hok in Hstep.
  destruct s as [[cc cd ck] gs p wc vs tr pk]; simpl in *. subst cd pk p.
  destruct i as [|j]; simpl in Hstep.
  - inversion Hco; subst; simpl in Hstep; try discriminate;
      injection Hstep as <-; constructor; simpl; auto.
    + apply Forall_app; split; [assumption|].
      repeat constructor; assumption.
    + rewrite length_app; simpl; lia.
    + discriminate.
  - destruct (gs !! j) as [t|] eqn:Ht; [|discriminate].
    destruct (Forall_lookup_1 _ _ _ _ Hgo Ht) as [Hp Hd].
    destruct t as [tc td tk]; simpl in *. subst td.
    inversion Hp; subst; simpl in Hstep; try discriminate;
      injection Hstep as <-; constructor; simpl; rewrite ?length_insert; auto;
      try (apply Forall_insert; [assumption | split; simpl; auto]);
      try (intros Hb; specialize (Hal Hb); subst gs; discriminate).
Qed.

Lemma unsync_reachable b p s :
  unsynchronised b p -> reachable p s -> unsync_state b s.
Proof.
  intros Hp. apply reachable_ind.
  - constructor; simpl; auto.
  - intros i s1 s2 H1 H2. exact (unsync_step _ _ _ _ H1 H2).
Qed.

Lemma forRange_unsynchronised b sem body k batch :
  (forall x k', unsynchronised b k' -> unsynchronised b (body x k')) ->
  unsynchronised b k ->
  forall i, unsynchronised b (forRange sem i batch body k).
Proof.
  intros Hbody Hk. induction batch as [|o rest IH]; intros i; simpl.
  - exact Hk.
  - constructor. apply Hbody, IH.
Qed.

Lemma sequentialProcessingOn_unsynchronised sem batch :
  unsynchronised false (sequentialProcessingOn sem batch).
Proof.
  unfold sequentialProcessingOn. constructor. constructor. intros st.
  apply forRange_unsynchronised.
  - intros x k Hk. constructor. intros o. repeat constructor. exact Hk.
  - repeat constructor.
Qed.

Lemma simpleGoroutine_unsynchronised : unsynchronised true simpleGoroutine.
Proof. unfold simpleGoroutine. repeat constructor. Qed.

Lemma multipleGoroutinesOn_unsynchronised sem batch :
  unsynchronised true (multipleGoroutinesOn sem batch).
Proof.
  unfold multipleGoroutinesOn. constructor. constructor. intros st.
  apply forRange_unsynchronised.
  - intros x k Hk. constructor. intros o. constructor; [reflexivity| |exact Hk].
    apply plain_processOrder. constructor.
  - repeat constructor.
Qed.




(** C2, as stated, fails: [simpleGoroutine] launches a task that no
    registration precedes. *)
Lemma register_before_every_launch_counterexample :
  ~ (forall sem p s, In p (scenarios sem) -> reachable p s ->
       register_before_launch (trace s) = true).
Proof.
  intros H.
  specialize (H SharedVar simpleGoroutine simple_final).
  assert (Hin : In simpleGoroutine (scenarios SharedVar)).
  { simpl. right. left. reflexivity. }
  assert (Hr : reachable simpleGoroutine simple_final).
  { exists [0; 0; 0; 0; 0]%nat. vm_compute. reflexivity. }
  specialize (H Hin Hr). vm_compute in H. discriminate.
Qed.

(** Without any event of the barrier, the launches of a trace are all
    unregistered. *)
Lemma credit_without_registration tr :
  existsb barrier_event tr = false ->
  credit tr = if Nat.eqb (launches tr) 0 then Some 0%nat else None.
Proof.
  induction tr as [|e tr IH]; simpl; [reflexivity|].
  intros H. apply orb_false_elim in H as [He Htr]. rewrite (IH Htr).
  unfold barrier_event in He.
  destruct (ev_act e); simpl; try discriminate;
    destruct (launches tr); reflexivity.
Qed.

(** C2, amended.  In the scenarios that use the barrier, under every
    schedule, each launch is preceded by its own registration, and every
    registration is made by the coordinator, never by a task.  In
    [simpleGoroutine] and [multipleGoroutines], under every schedule, there
    is no registration at all: no [wg.Add] is ever called, by any goroutine,
    so that every task they launch is launched unregistered. *)
Theorem register_before_launch_with_barrier sem batch p s q s' :
  In p (barrier_scenarios sem batch) ->
  reachable p s ->
  In q [simpleGoroutine; multipleGoroutinesOn sem batch] ->
  reachable q s' ->
  (register_before_launch (trace s) = true /\
   (forall e delta,
      In e (trace s) -> ev_act e = AAdd delta -> ev_tid e = 0%nat)) /\
  ((forall e delta, In e (trace s') -> ev_act e <> AAdd delta) /\
   registrations (trace s') = 0 /\
   launches (trace s') = length (gos s') /\
   (gos s' <> [] -> register_before_launch (trace s') = false)).
Proof.
  intros Hp Hr Hq Hr'. split.
  - destruct (barrier_scenarios_coordinator _ _ _ Hp) as [total Hc].
    destruct (disciplined_reachable _ _ _ Hc Hr).
    split.
    + unfold register_before_launch. rewrite d_credit. reflexivity.
    + intros e delta. apply (credit_adds_by_coordinator _ _ _ _ d_credit).
  - assert (Hu : unsynchronised true q).
    { destruct Hq as [<-|[<-|[]]].
      - apply simpleGoroutine_unsynchronised.
      - apply multipleGoroutinesOn_unsynchronised. }
    destruct (unsync_reachable _ _ _ Hu Hr').
    assert (Hnone : forall e, In e (trace s') -> barrier_event e = false).
    { intros e He. destruct (barrier_event e) eqn:E; [|reflexivity].
      assert (existsb barrier_event (trace s') = true).
      { apply existsb_exists. exists e. split; assumption. }
      congruence. }
    split; [|split; [|split]].
    + intros e delta He Ha. specialize (Hnone e He).
      unfold barrier_event in Hnone. rewrite Ha in Hnone. discriminate.
    + clear - Hnone. induction (trace s') as [|e tr IH]; simpl; [reflexivity|].
      rewrite IH by (intros e' He'; apply Hnone; right; exact He').
      pose proof (Hnone e (or_introl eq_refl)) as He.
      unfold barrier_event in He. destruct (ev_act e); try discriminate; reflexivity.
    + assumption.
    + intros Hg. unfold register_before_launch.
      rewrite (credit_without_registration _ u_events), u_launches.
      destruct (gos s'); [congruence | reflexivity].
Qed.

Lemma register_before_launch_with_barrier_witness :
  (register_before_launch (trace wg_final) = true /\
   (forall e delta,
      In e (trace wg_final) -> ev_act e = AAdd delta -> ev_tid e = 0%nat)) /\
  ((forall e delta, In e (trace simple_final) -> ev_act e <> AAdd delta) /\
   registrations (trace simple_final) = 0 /\
   launches (trace simple_final) = length (gos simple_final) /\
   (gos simple_final <> [] ->
    register_before_launch (trace simple_final) = false)).
Proof.
  apply (register_before_launch_with_barrier SharedVar orders
           (goroutinesWithWaitGroup SharedVar) wg_final
           simpleGoroutine simple_final).
  - simpl. left. reflexivity.
  - exists wg_schedule. vm_compute. reflexivity.
  - simpl. left. reflexivity.
  - exists [0; 0; 0; 0; 0]%nat. vm_compute. reflexivity.
Defined.

(** The scenarios without barrier never register. *)
Lemma sleep_scenarios_never_register sem batch p s :
  In p [simpleGoroutine; multipleGoroutinesOn sem batch] ->
  reachable p s ->
  forall e, In e (trace s) -> barrier_event e = false.
Proof.
  intros Hp Hr.
  assert (Hu : unsynchronised true p).
  { destruct Hp as [<-|[<-|[]]].
    - apply simpleGoroutine_unsynchronised.
    - apply multipleGoroutinesOn_unsynchronised. }
  destruct (unsync_reachable _ _ _ Hu Hr).
  intros e He. destruct (barrier_event e) eqn:E; [|reflexivity].
  assert (existsb barrier_event (trace s) = true).
  { apply existsb_exists. exists e. split; assumption. }
  congruence.
Qed.




(** ** The barrier alone *)

Lemma issue_balance ops pending c :
  0 <= pending -> issue ops pending = Some c ->
  0 <= c /\ c = pending + balance ops.
Proof.
  revert pending. induction ops as [|op ops IH]; intros pending Hp H; simpl in *.
  - injection H as <-. lia.
  - destruct (apply_op op pending) as [c1|] eqn:E; [|discriminate].
    destruct op; unfold apply_op, WaitGroup.Done, WaitGroup.Add in E; simpl in E;
      [ destruct (Z.ltb_spec (pending + 1) 0)
      | destruct (Z.ltb_spec (pending + -1) 0) ];
      try discriminate; injection E as <-;
      apply IH in H; lia.
Qed.

(** The counter is never negative, in any program, under any schedule. *)
Lemma pending_nonneg_step i s s' :
  0 <= pending s -> step i s = Some s' -> 0 <= pending s'.
Proof.
  intros Hp Hstep. unfold step in Hstep.
  destruct (panicked s); [discriminate|].
  destruct (get_thread i s) as [t|]; [|discriminate].
  assert (Hset : forall t', pending (set_thread i t' s) = pending s).
  { intros t'. destruct i; reflexivity. }
  assert (Hadd : forall a delta now t',
            0 <= pending (wg_add i a delta now t' s)).
  { intros a delta now t'. unfold wg_add, WaitGroup.Add.
    destruct (Z.ltb_spec (pending s + delta) 0); simpl; lia. }
  destruct (code t); try (injection Hstep as <-; simpl; rewrite ?Hset; auto; fail).
  - destruct (defers t); [discriminate|]. injection Hstep as <-. rewrite Hset. auto.
  - destruct (WaitGroup.Wait (pending s)); [|discriminate].
    injection Hstep as <-. simpl. rewrite Hset. auto.
Qed.

Lemma pending_nonneg p s : reachable p s -> 0 <= pending s.
Proof.
  revert s. apply (reachable_ind (fun s => 0 <= pending s)).
  - simpl. lia.
  - intros i s1 s2 H1 H2. exact (pending_nonneg_step _ _ _ H1 H2).
Qed.

(** C8.  A sequence of [Add(1)] and [Done] calls with more signals than
    registrations is refused: some call of it panics, and no call ever leaves
    a negative counter; neither does any step of any program. *)
Theorem over_signal_is_detected ops :
  balance ops < 0 ->
  issue ops 0 = None /\
  (forall prefix c, issue prefix 0 = Some c -> 0 <= c) /\
  (forall p s, reachable p s -> 0 <= pending s).
Proof.
  intros Hneg. split; [|split].
  - destruct (issue ops 0) as [c|] eqn:E; [|reflexivity].
    destruct (issue_balance ops 0 c ltac:(lia) E). lia.
  - intros prefix c E. destruct (issue_balance prefix 0 c ltac:(lia) E). assumption.
  - exact pending_nonneg.
Qed.

Lemma over_signal_is_detected_witness :
  issue [Register; Signal; Signal] 0 = None /\
  (forall prefix c, issue prefix 0 = Some c -> 0 <= c) /\
  (forall p s, reachable p s -> 0 <= pending s).
Proof.
  apply (over_signal_is_detected [Register; Signal; Signal]).
  vm_compute. reflexivity.
Defined.

(** A task that signals twice: the second [wg.Done] panics. *)
Example double_done_panics :
  option_map (fun s => (panicked s, pending s))
    (run [0; 0; 1; 1]%nat (init (WgAdd 1 (Go (WgDone (WgDone Ret)) (WgWait Ret)))))
  = Some (true, 0).
Proof. vm_compute. reflexivity. Qed.

(** A coordinator that follows the discipline is never stuck when no task
    owes a signal. *)
Lemma coordinator_progress total s :
  disciplined total s -> owed (gos s) = 0%nat ->
  finished (coordinator s) = false ->
  exists s', step 0 s = Some s'.
Proof.
  intros [c n Hok Hco Hde Hgo Hpe Hla Hcr Hre Hlc Hdr Hcn Hs0 Hsg Hns Haw] H0 Hf.
  unfold step. rewrite Hok.
  destruct s as [[cc cd ck] gs p wc vs tr pk]; simpl in *. subst cd.
  inversion Hco; subst; simpl; try discriminate; eauto.
  unfold WaitGroup.Wait. rewrite H0. simpl. eauto.
Qed.

(** Two consecutive [wg.Wait] calls on a drained barrier both return. *)
Lemma wait_twice i s t k :
  panicked s = false -> get_thread i s = Some t ->
  code t = WgWait (WgWait k) -> pending s = 0 ->
  exists s1 s2,
    step i s = Some s1 /\ step i s1 = Some s2 /\
    pending s2 = 0 /\
    option_map code (get_thread i s2) = Some k /\
    trace s2 = Ev i AWait :: Ev i AWait :: trace s.
Proof.
  intros Hok Ht Hc Hp.
  destruct s as [co gs p wc vs tr pk]; simpl in *. subst pk p.
  destruct i as [|j]; simpl in Ht.
  - injection Ht as ->. unfold step; simpl. rewrite Hc. simpl.
    eexists; eexists. split; [reflexivity|]. simpl. repeat split.
  - pose proof (lookup_lt_Some _ _ _ Ht) as Hlt.
    unfold step; simpl. rewrite Ht, Hc. simpl.
    eexists; eexists. split; [reflexivity|]. simpl.
    rewrite list_lookup_insert_eq by assumption. simpl.
    split; [reflexivity|]. simpl.
    rewrite list_lookup_insert_eq by (rewrite length_insert; assumption).
    repeat split.
Qed.

(** C6.  With an empty batch the coordinator of [goroutinesWithWaitGroup]
    is never blocked: in every reachable state it has returned or can take
    its next step, [wg.Wait] included.  Once [wg.Wait] has returned the
    counter stays at zero, whatever the batch.  And [wg.Wait] called with the
    counter at zero returns at once and leaves the counter at zero, so that
    a second call returns at once too. *)
Theorem await_immediate_when_drained sem batch s i s0 t k :
  reachable (goroutinesWithWaitGroupOn sem batch) s ->
  panicked s0 = false -> get_thread i s0 = Some t ->
  code t = WgWait (WgWait k) -> pending s0 = 0 ->
  (batch = [] ->
   finished (coordinator s) = true \/ exists s', step 0 s = Some s') /\
  (awaited (trace s) = true ->
   pending s = 0 /\ WaitGroup.Wait (pending s) = true) /\
  WaitGroup.Wait (pending s0) = true /\
  exists s1 s2,
    step i s0 = Some s1 /\ step i s1 = Some s2 /\
    pending s2 = 0 /\
    option_map code (get_thread i s2) = Some k /\
    trace s2 = Ev i AWait :: Ev i AWait :: trace s0.
Proof.
  intros Hr Hok Ht Hc Hp.
  pose proof (disciplined_reachable _ _ _
                (goroutinesWithWaitGroupOn_coordinator sem batch) Hr) as Hd.
  split; [|split; [|split]].
  - intros ->.
    destruct (finished (coordinator s)) eqn:Hf; [left; reflexivity|right].
    apply (coordinator_progress _ _ Hd); [|assumption].
    destruct Hd. simpl in d_launched.
    destruct (gos s); [reflexivity|simpl in d_launched; lia].
  - intros Hw. destruct Hd. destruct (d_drained Hw) as (-> & _ & H0).
    rewrite d_pending, H0. split; reflexivity.
  - rewrite Hp. reflexivity.
  - exact (wait_twice i s0 t k Hok Ht Hc Hp).
Qed.

Lemma await_immediate_when_drained_witness :
  ((@nil Order) = [] ->
   finished (coordinator (init (goroutinesWithWaitGroupOn SharedVar []))) = true \/
   exists s', step 0 (init (goroutinesWithWaitGroupOn SharedVar [])) = Some s') /\
  (awaited (trace (init (goroutinesWithWaitGroupOn SharedVar []))) = true ->
   pending (init (goroutinesWithWaitGroupOn SharedVar [])) = 0 /\
   WaitGroup.Wait (pending (init (goroutinesWithWaitGroupOn SharedVar []))) = true) /\
  WaitGroup.Wait (pending (init (WgWait (WgWait Ret)))) = true /\
  exists s1 s2,
    step 0 (init (WgWait (WgWait Ret))) = Some s1 /\ step 0 s1 = Some s2 /\
    pending s2 = 0 /\
    option_map code (get_thread 0 s2) = Some Ret /\
    trace s2 = Ev 0 AWait :: Ev 0 AWait :: trace (init (WgWait (WgWait Ret))).
Proof.
  apply (await_immediate_when_drained SharedVar []
           (init (goroutinesWithWaitGroupOn SharedVar [])) 0
           (init (WgWait (WgWait Ret))) (Thread (WgWait (WgWait Ret)) [] 0) Ret).
  - exists []. reflexivity.
  - reflexivity.
  - reflexivity.
  - reflexivity.
  - reflexivity.
Defined.

(** The empty batch, run by the coordinator alone. *)
Example empty_batch_completes sem :
  option_map (fun s => (complete s, awaited (trace s)))
    (run [0; 0; 0; 0; 0; 0]%nat (init (goroutinesWithWaitGroupOn sem [])))
  = Some (true, true).
Proof. destruct sem; vm_compute; reflexivity. Qed.

(** ** Sequential code *)

Lemma step_no_goroutine j s : gos s = [] -> step (S j) s = None.
Proof.
  intros H. unfold step. destruct (panicked s); [reflexivity|].
  simpl. rewrite H. reflexivity.
Qed.

(** Sequential code has one execution: every reachable trace is a prefix of
    [seq_events], and the whole of it once the function has returned. *)
Lemma sequential_run p :
  unsynchronised false p ->
  forall sched co gs pe wc vs tr s',
    code co = p -> defers co = [] -> gs = [] ->
    run sched (State co gs pe wc vs tr false) = Some s' ->
    gos s' = [] /\
    exists n,
      trace s' = rev (firstn n (seq_events p vs (clock co))) ++ tr /\
      (finished (coordinator s') = true ->
       trace s' = rev (seq_events p vs (clock co)) ++ tr).
Proof.
  intros Hp. induction Hp; intros sched [cc cd ck] gs pe wc vs tr s' Hc Hd Hg Hrun;
    simpl in *; subst cc cd gs.
  all: destruct sched as [|[|j] rest];
    [ injection Hrun as <-; simpl; split; [reflexivity|];
      exists 0%nat; split; [reflexivity|]; try discriminate; auto
    | | cbn [run] in Hrun; unfold step in Hrun; simpl in Hrun; discriminate ].
  all: simpl in Hrun; try discriminate.
  - apply IHHp in Hrun; auto. destruct Hrun as (Hg & n & Hn & Hf). split; [assumption|].
    exists (S n). simpl. rewrite <- !app_assoc. auto.
  - apply IHHp in Hrun; auto. destruct Hrun as (Hg & n & Hn & Hf). split; [assumption|].
    exists (S n). simpl. rewrite <- !app_assoc. auto.
  - apply (H0 ck) in Hrun; auto.
  - apply (H0 1) in Hrun; auto.
  - apply IHHp in Hrun; auto.
  - apply (H0 (vs x)) in Hrun; auto.
Qed.

(** Sequential code runs to its end. *)
Lemma sequential_terminates p :
  unsynchronised false p ->
  forall ck gs pe wc vs tr,
    exists n s',
      run (repeat 0%nat n) (State (Thread p [] ck) gs pe wc vs tr false) = Some s' /\
      finished (coordinator s') = true.
Proof.
  intros Hp. induction Hp; intros ck gs pe wc vs tr; try discriminate.
  - exists 0%nat. eexists. split; reflexivity.
  - edestruct IHHp as (n & s' & Hrun & Hf).
    exists (S n), s'. split; [exact Hrun | exact Hf].
  - edestruct IHHp as (n & s' & Hrun & Hf).
    exists (S n), s'. split; [exact Hrun | exact Hf].
  - edestruct (H0 ck) as (n & s' & Hrun & Hf).
    exists (S n), s'. split; [exact Hrun | exact Hf].
  - edestruct (H0 (num_goroutine (State (Thread (NumGoroutine k) [] ck)
                                   gs pe wc vs tr false)))
      as (n & s' & Hrun & Hf).
    exists (S n), s'. split; [exact Hrun | exact Hf].
  - edestruct IHHp as (n & s' & Hrun & Hf).
    exists (S n), s'. split; [exact Hrun | exact Hf].
  - edestruct (H0 (vs x)) as (n & s' & Hrun & Hf).
    exists (S n), s'. split; [exact Hrun | exact Hf].
Qed.

Lemma seq_events_forRange sem batch k :
  forall i vs clk,
    exists vs',
      seq_events
        (forRange sem i batch
           (fun x k' =>
              GetVar x (fun order => SequentialSynchronous.processOrder order k'))
           k) vs clk
      = flat_map invocation batch ++ seq_events k vs' (clk + total_time batch).
Proof.
  induction batch as [|o rest IH]; intros i vs clk; simpl.
  - exists vs. rewrite Z.add_0_r. reflexivity.
  - rewrite Nat.eqb_refl. simpl.
    destruct (IH (S i) (fun y => if Nat.eqb y (slot sem i) then o else vs y)
                (clk + Z.max 0 (PrepTime o))) as (vs' & ->).
    exists vs'. rewrite <- Z.add_assoc. reflexivity.
Qed.

Lemma seq_events_mainOn sem batch vs :
  seq_events (SequentialSynchronous.mainOn sem batch) vs 0 = main_events batch.
Proof.
  unfold SequentialSynchronous.mainOn, SequentialSynchronous.processAll, main_events.
  simpl.
  destruct (seq_events_forRange sem batch
              (Now (fun t =>
                 Printf (Elapsed "Total processing time" (t - 0))
                   (Printf (Text "Note: Orders processed sequentially - one after another")
                      Ret))) 0%nat vs 0) as (vs' & ->).
  simpl. unfold main_footer. repeat f_equal. lia.
Qed.

Lemma mainOn_unsynchronised sem batch :
  unsynchronised false (SequentialSynchronous.mainOn sem batch).
Proof.
  unfold SequentialSynchronous.mainOn, SequentialSynchronous.processAll.
  constructor. constructor. constructor. intros st.
  apply forRange_unsynchronised.
  - intros x k Hk. constructor. intros o. repeat constructor. exact Hk.
  - repeat constructor.
Qed.

(** C10.  The loop of the sequential [main], over any list of orders: its
    output is the header, then for each order of the list, in the order of
    the list, the three events of one [processOrder] call (start message,
    full sleep, completion message), then the footer.  Every execution
    prints a prefix of that sequence, so that a call has ended before the
    next one starts; the execution that runs [main] to its end exists and
    prints all of it; no other goroutine ever runs. *)
Theorem sequential_processes_each_order_once sem batch s :
  reachable (SequentialSynchronous.mainOn sem batch) s ->
  gos s = [] /\
  (exists n, rev (trace s) = firstn n (main_events batch)) /\
  (finished (coordinator s) = true -> rev (trace s) = main_events batch) /\
  (exists sched s',
     run sched (init (SequentialSynchronous.mainOn sem batch)) = Some s' /\
     finished (coordinator s') = true).
Proof.
  intros [sched Hrun]. unfold init in Hrun.
  destruct (sequential_run _ (mainOn_unsynchronised sem batch) sched
              (Thread (SequentialSynchronous.mainOn sem batch) [] 0)
              [] 0 0 (fun _ => zeroOrder) [] s eq_refl eq_refl eq_refl Hrun)
    as (Hg & n & Hn & Hf).
  cbn [clock] in Hn, Hf. rewrite seq_events_mainOn, app_nil_r in Hn, Hf.
  split; [assumption|]. split; [|split].
  - exists n. rewrite Hn. apply rev_involutive.
  - intros H. rewrite (Hf H). apply rev_involutive.
  - destruct (sequential_terminates _ (mainOn_unsynchronised sem batch)
                0 [] 0 0 (fun _ => zeroOrder) []) as (m & s' & Hm & Hfin).
    exists (repeat 0%nat m), s'. split; assumption.
Qed.

Lemma sequential_processes_each_order_once_witness :
  gos seq_final = [] /\
  (exists n, rev (trace seq_final) = firstn n (main_events SequentialSynchronous.orders)) /\
  (finished (coordinator seq_final) = true ->
   rev (trace seq_final) = main_events SequentialSynchronous.orders) /\
  (exists sched s',
     run sched (init (SequentialSynchronous.mainOn SharedVar SequentialSynchronous.orders))
       = Some s' /\
     finished (coordinator s') = true).
Proof.
  apply (sequential_processes_each_order_once SharedVar
           SequentialSynchronous.orders seq_final).
  exists (repeat 0%nat 31). vm_compute. reflexivity.
Defined.

(** The literal list takes 2 + 3 + 1 + 4 + 2 = 12 seconds. *)
Example sequential_total_time :
  total_time SequentialSynchronous.orders = 12 * Second /\
  finished (coordinator seq_final) = true.
Proof. vm_compute. split; reflexivity. Qed.

(** ** The captured loop variable *)

(** C3 fails in [goroutineRuntimeInfo].  Its tasks do not receive the order
    as an argument: the closure reads the loop variable when it reaches
    [processOrder(order)].  With one variable for the whole loop (Go before
    1.22, the semantics the README of the repository describes), in this
    complete execution all five tasks process order 5 with its 2 seconds, and
    orders 1 to 4 are processed by no task. *)
Theorem goroutineRuntimeInfo_tasks_share_loop_variable :
  exists s,
    run capture_schedule (init (goroutineRuntimeInfo SharedVar)) = Some s /\
    complete s = true /\
    map snd (observed (trace s)) = repeat (5, 2 * Second) 5 /\
    map descriptor orders =
      [ (1, 2 * Second); (2, 3 * Second); (3, 1 * Second);
        (4, 4 * Second); (5, 2 * Second) ] /\
    ~ Permutation (map snd (observed (trace s))) (map descriptor orders).
Proof.
  eexists. split; [vm_compute; reflexivity|].
  split; [vm_compute; reflexivity|].
  split; [vm_compute; reflexivity|].
  split; [vm_compute; reflexivity|].
  intros Hperm.
  assert (Hin : In (1, 2 * Second) (map descriptor orders)).
  { left. reflexivity. }
  apply (Permutation_in _ (Permutation_sym Hperm)) in Hin.
  vm_compute in Hin.
  repeat (destruct Hin as [Hin|Hin]; [discriminate|]). exact Hin.
Qed.

(** With a variable per iteration (Go 1.22 and later) the same schedule
    shows each task its own order; the task still reads the coordinator's
    variable instead of owning a copy. *)
Example goroutineRuntimeInfo_per_iteration :
  option_map (fun s => map snd (observed (trace s)))
    (run capture_schedule (init (goroutineRuntimeInfo PerIteration)))
  = Some (map descriptor orders).
Proof. vm_compute. reflexivity. Qed.

(** ** [goroutinesWithWaitGroup], point by point *)

Lemma observed_skip e tr : observation e = None -> observed (e :: tr) = observed tr.
Proof. intros H. unfold observed. simpl. rewrite H. reflexivity. Qed.

Lemma observed_report e tr x :
  observation e = Some x -> observed (e :: tr) = observed tr ++ [x].
Proof. intros H. unfold observed. simpl. rewrite H. reflexivity. Qed.

Lemma reported_by_same batch (gs : list thread) (j : nat) t t' :
  gs !! j = Some t -> reported t' = reported t ->
  reported_by batch (<[j:=t']> gs) = reported_by batch gs.
Proof.
  revert gs j. induction batch as [|o batch IH]; intros [|u gs] [|j] Ht Hr;
    simpl in *; try discriminate; try reflexivity.
  - injection Ht as ->. rewrite Hr. reflexivity.
  - rewrite (IH _ _ Ht Hr). reflexivity.
Qed.

Lemma reported_by_new (batch : list Order) (gs : list thread) (j : nat) o t t' :
  gs !! j = Some t -> batch !! j = Some o ->
  reported t = false -> reported t' = true ->
  Permutation (reported_by batch gs ++ [descriptor o])
              (reported_by batch (<[j:=t']> gs)).
Proof.
  revert gs j. induction batch as [|o' batch IH]; intros [|u gs] [|j] Ht Ho Hf Hn;
    simpl in *; try discriminate.
  - injection Ht as ->. injection Ho as ->. rewrite Hf, Hn. simpl.
    symmetry. apply Permutation_cons_append.
  - rewrite <- app_assoc. apply Permutation_app_head. exact (IH _ _ Ht Ho Hf Hn).
Qed.

Lemma reported_by_launch (batch : list Order) (gs : list thread) t :
  reported t = false ->
  reported_by batch (gs ++ [t]) = reported_by batch gs.
Proof.
  intros Hf. revert gs. induction batch as [|o batch IH]; intros [|u gs];
    simpl; try reflexivity.
  - rewrite Hf. destruct batch; reflexivity.
  - rewrite IH. reflexivity.
Qed.

Lemma reported_by_all (batch : list Order) (gs : list thread) :
  length gs = length batch -> Forall (fun t => reported t = true) gs ->
  reported_by batch gs = map descriptor batch.
Proof.
  revert gs. induction batch as [|o batch IH]; intros [|u gs] Hlen Hall;
    simpl in *; try discriminate; try reflexivity.
  inversion Hall; subst.
  match goal with H : reported u = true |- _ => rewrite H end.
  simpl. f_equal. apply IH; [lia | assumption].
Qed.

Arguments observed : simpl never.
Arguments reported_by : simpl never.

Lemma span_nonneg batch : 0 <= span batch.
Proof. induction batch as [|o rest IH]; simpl; lia. Qed.

Lemma span_ge (batch : list Order) (j : nat) o :
  batch !! j = Some o -> Z.max 0 (PrepTime o) <= span batch.
Proof.
  revert j. induction batch as [|o' rest IH]; intros [|j] H; simpl in *;
    try discriminate.
  - injection H as ->. lia.
  - specialize (IH _ H). lia.
Qed.

Lemma span_le (batch : list Order) X :
  0 <= X ->
  (forall (j : nat) o, batch !! j = Some o -> Z.max 0 (PrepTime o) <= X) ->
  span batch <= X.
Proof.
  intros HX. induction batch as [|o rest IH]; intros H; simpl; [assumption|].
  pose proof (H 0%nat o eq_refl).
  assert (span rest <= X) by (apply IH; intros j o' Hj; apply (H (S j) o' Hj)).
  lia.
Qed.

Lemma finished_task_clock o phase :
  finished (task_thread o phase) = true ->
  clock (task_thread o phase) = Z.max 0 (PrepTime o).
Proof.
  destruct phase as [|[|[|[|[|[|phase]]]]]]; simpl; try discriminate.
  reflexivity.
Qed.

(** When the counter is zero every launched task has returned, and the
    latest of their signals is the span of the tasks launched. *)
Lemma drained_clock total batch s :
  disciplined total s ->
  Forall2 runs_task batch (gos s) ->
  (forall (j : nat) t,
     gos s !! j = Some t -> finished t = true -> clock t <= wg_clock s) ->
  pending s = 0 ->
  span batch <= Z.max 0 (wg_clock s).
Proof.
  intros Hd Hgos Hdone Hp. destruct Hd.
  assert (H0 : owed (gos s) = 0%nat) by lia.
  apply span_le; [lia|]. intros j o Hj.
  destruct (Forall2_lookup_l _ _ _ _ _ Hgos Hj) as (t & Ht & [phase ->]).
  pose proof (owed_zero _ _ _ H0 Ht) as Ho. rewrite owes_finished in Ho.
  destruct (finished (task_thread o phase)) eqn:Hf; [|discriminate].
  rewrite <- (finished_task_clock _ _ Hf).
  specialize (Hdone _ _ Ht Hf). lia.
Qed.

(** A step of a task leaves the coordinator where it is. *)
Lemma wg_pc_ok_task sem batch pc co (gs gs' : list thread) pe pe' wc wc' vs tr tr' :
  length gs' = length gs ->
  (forall e, In e tr -> In e tr') ->
  wg_pc_ok sem batch pc (State co gs pe wc vs tr false) ->
  wg_pc_ok sem batch pc (State co gs' pe' wc' vs tr' false).
Proof.
  intros Hlen Htr. destruct pc; simpl; rewrite Hlen; intuition.
Qed.

Lemma runs_task_insert batch (gs : list thread) (j : nat) o t' :
  Forall2 runs_task (take (length gs) batch) gs ->
  take (length gs) batch !! j = Some o ->
  runs_task o t' ->
  Forall2 runs_task (take (length (<[j:=t']> gs)) batch) (<[j:=t']> gs).
Proof.
  intros Hgos Ho Ht. rewrite length_insert.
  rewrite <- (list_insert_id _ _ _ Ho). apply Forall2_insert; assumption.
Qed.

(** The new event is no completion message and no task changed. *)
Ltac reports_same :=
  rewrite ?observed_skip by reflexivity; assumption.

Lemma wg_state_step sem batch i s s' :
  disciplined (length batch) s -> wg_state sem batch s ->
  step i s = Some s' -> wg_state sem batch s'.
Proof.
  intros Hd [pc Hcode Hpc Hgos Hlo Hhi Hdone Hshows Hel Hrep] Hstep.
  unfold step in Hstep.
  destruct s as [[cc cd ck] gs pe wc vs tr pk]; simpl in *.
  assert (pk = false) as -> by (destruct Hd; assumption).
  assert (cd = []) as -> by (destruct Hd; assumption).
  assert (Hpe : 0 <= pe) by (destruct Hd; simpl in *; lia).
  pose proof (span_nonneg batch) as Hsp.
  destruct i as [|j]; simpl in Hstep.
  - subst cc. destruct pc; cbn [wg_code] in Hstep; simpl in Hpc.
    + (* PcStart *) injection Hstep as <-.
      apply (WgState _ _ _ PcNow); simpl; auto.
      * constructor; [exact I | assumption].
      * constructor; [exact I | assumption].
    + (* PcNow *) injection Hstep as <-. destruct Hpc as [Hn Hck]. subst ck.
      apply (WgState _ _ _ (PcLoop 0)); simpl; auto.
      repeat split; auto; lia.
    + (* PcLoop *) destruct Hpc as (Hn & Hle & Hck). subst ck.
      destruct (batch !! i) as [o|] eqn:Ho.
      * rewrite (drop_S _ _ _ Ho) in Hstep. simpl in Hstep.
        injection Hstep as <-.
        apply (WgState _ _ _ (PcAdd i o)); simpl; auto.
        repeat split; auto. rewrite Nat.eqb_refl. reflexivity.
      * apply lookup_ge_None_1 in Ho.
        rewrite drop_ge in Hstep by assumption. simpl in Hstep.
        destruct (WaitGroup.Wait pe) eqn:Hw; [|discriminate].
        injection Hstep as <-.
        assert (Hspan : Z.max 0 wc = span batch).
        { apply Z.le_antisymm; [pose proof (span_nonneg batch); lia|].
          apply (drained_clock _ _ _ Hd); simpl; auto.
          - rewrite firstn_all2 in Hgos by lia. exact Hgos.
          - unfold WaitGroup.Wait in Hw. lia. }
        apply (WgState _ _ _ PcSeq); simpl; auto.
        -- split; [lia | assumption].
        -- constructor; [exact I | assumption].
        -- constructor; [exact I | assumption].
    + (* PcAdd *) destruct Hpc as (Hn & Ho & Hv & Hck). subst ck.
      simpl in Hstep. injection Hstep as <-.
      unfold wg_add, WaitGroup.Add; simpl.
      destruct (Z.ltb_spec (pe + 1) 0) as [Hneg|_]; [lia|].
      apply (WgState _ _ _ (PcArg i o)); simpl; auto; try lia.
      * intros j t Hj Hf. specialize (Hdone j t Hj Hf). lia.
      * constructor; [exact I | assumption].
      * constructor; [exact I | assumption].
    + (* PcArg *) destruct Hpc as (Hn & Ho & Hv & Hck). subst ck.
      simpl in Hstep. injection Hstep as <-. rewrite Hv.
      apply (WgState _ _ _ (PcGo i o)); simpl; auto.
    + (* PcGo *) destruct Hpc as (Hn & Ho & Hck). subst ck.
      simpl in Hstep. injection Hstep as <-.
      pose proof (lookup_lt_Some _ _ _ Ho) as Hlt.
      apply (WgState _ _ _ (PcLoop (S i))); simpl; auto.
      * rewrite length_app; simpl. repeat split; lia.
      * rewrite length_app; simpl. rewrite Nat.add_1_r, Hn.
        rewrite (take_S_r _ _ _ Ho). apply Forall2_app.
        -- rewrite <- Hn. exact Hgos.
        -- constructor; [|constructor]. exists 0%nat. reflexivity.
      * intros j t Hj Hf. apply lookup_app_Some in Hj as [Hj|[_ Hj]].
        -- exact (Hdone j t Hj Hf).
        -- destruct (j - length gs)%nat as [|[|d]]; simpl in Hj; try discriminate.
           injection Hj as <-. discriminate.
      * constructor; [exact I | assumption].
      * constructor; [exact I | assumption].
      * rewrite reported_by_launch by reflexivity. reports_same.
    + (* PcSeq *) simpl in Hstep. injection Hstep as <-.
      apply (WgState _ _ _ PcNow2); simpl; auto.
      * constructor; [exact I | assumption].
      * constructor; [exact I | assumption].
    + (* PcNow2 *) simpl in Hstep. injection Hstep as <-.
      destruct Hpc as [Hn Hck]. subst ck.
      apply (WgState _ _ _ PcElapsed); simpl; auto.
    + (* PcElapsed *) simpl in Hstep. injection Hstep as <-.
      destruct Hpc as [Hn Hck].
      apply (WgState _ _ _ PcEnd); simpl; auto.
      * split; [assumption|]. left. rewrite Z.sub_0_r. reflexivity.
      * constructor; [exact I | assumption].
      * constructor; [|assumption]. unfold elapsed_is_span; simpl. lia.
    + (* PcEnd *) discriminate.
  - destruct (gs !! j) as [t|] eqn:Ht; [|discriminate].
    destruct (Forall2_lookup_r _ _ _ _ _ Hgos Ht) as (o & Ho & [phase ->]).
    pose proof (proj1 (lookup_take_Some _ _ _ _) Ho) as [Hb Hj].
    pose proof (span_ge _ _ _ Hb) as Hsg.
    assert (Hown : forall a, shows o a -> shows_own batch (Ev (S j) a)).
    { intros a Ha. unfold shows_own. simpl. rewrite Hb. exact Ha. }
    assert (Hkeep : forall t' wc', wc <= wc' ->
              (finished t' = true -> clock t' <= wc') ->
              forall (j' : nat) u,
                <[j:=t']> gs !! j' = Some u -> finished u = true -> clock u <= wc').
    { intros t' wc' Hwc Hnew j' u Hj' Hf.
      destruct (decide (j' = j)) as [->|Hne].
      - rewrite list_lookup_insert_eq in Hj' by (eapply lookup_lt_Some; exact Ht).
        injection Hj' as <-. auto.
      - rewrite list_lookup_insert_ne in Hj' by congruence.
        specialize (Hdone j' u Hj' Hf). lia. }
    destruct phase as [|[|[|[|[|[|phase]]]]]]; simpl in Hstep; try discriminate.
    1-5: injection Hstep as <-; apply (WgState _ _ _ pc); simpl;
      [ assumption
      | eapply wg_pc_ok_task; [apply length_insert | | exact Hpc];
        intros e He; simpl; auto
      | apply (runs_task_insert batch gs j o); auto
      | assumption | assumption
      | apply Hkeep; [lia | discriminate]
      | try (constructor; [apply Hown; simpl; auto|]); assumption
      | try (constructor; [exact I|]); assumption
      | ].
    + exists 1%nat. reflexivity.
    + rewrite (reported_by_same _ _ _ _ _ Ht) by reflexivity. reports_same.
    + exists 2%nat. reflexivity.
    + rewrite (reported_by_same _ _ _ _ _ Ht) by reflexivity. reports_same.
    + exists 3%nat. reflexivity.
    + rewrite (reported_by_same _ _ _ _ _ Ht) by reflexivity. reports_same.
    + exists 4%nat. reflexivity.
    + rewrite (observed_report _ _ (S j, descriptor o)) by reflexivity.
      rewrite map_app. simpl.
      etransitivity; [|apply (reported_by_new _ _ _ _ _ _ Ht Hb); reflexivity].
      apply Permutation_app_tail. assumption.
    + exists 5%nat. reflexivity.
    + rewrite (reported_by_same _ _ _ _ _ Ht) by reflexivity. reports_same.
    + injection Hstep as <-. unfold wg_add, WaitGroup.Add; simpl.
      assert (1 <= pe).
      { destruct Hd; simpl in *.
        destruct (owed gs) eqn:E; [|lia].
        pose proof (owed_zero _ _ _ E Ht) as H0. discriminate. }
      destruct (Z.ltb_spec (pe + -1) 0) as [Hneg|_]; [lia|].
      apply (WgState _ _ _ pc); simpl.
      * assumption.
      * eapply wg_pc_ok_task; [apply length_insert | | exact Hpc].
        intros e He; simpl; auto.
      * apply (runs_task_insert batch gs j o); auto. exists 6%nat. reflexivity.
      * lia.
      * lia.
      * apply Hkeep; [lia | simpl; lia].
      * constructor; [apply Hown; simpl; auto | assumption].
      * constructor; [exact I | assumption].
      * rewrite (reported_by_same _ _ _ _ _ Ht) by reflexivity. reports_same.
Qed.

Lemma wg_state_reachable sem batch s :
  reachable (goroutinesWithWaitGroupOn sem batch) s ->
  disciplined (length batch) s /\ wg_state sem batch s.
Proof.
  revert s.
  apply (reachable_ind (fun s => disciplined (length batch) s /\ wg_state sem batch s)).
  - split.
    + apply disciplined_init, goroutinesWithWaitGroupOn_coordinator.
    + apply (WgState _ _ _ PcStart); simpl; auto; try lia.
      * apply span_nonneg.
      * intros j t Hj. discriminate.
      * destruct batch; exact (perm_nil _).
  - intros i s1 s2 [Hd Hw] Hstep. split.
    + exact (disciplined_step _ _ _ _ Hd Hstep).
    + exact (wg_state_step _ _ _ _ _ Hd Hw Hstep).
Qed.

(** In [goroutinesWithWaitGroup] every task processes its own order: under
    every schedule and with either kind of loop variable, each message and
    each sleep of the task launched for order [j] shows the id and the
    duration of order [j]. *)
Lemma goroutinesWithWaitGroup_tasks_own_their_order sem batch s e (j : nat) o :
  reachable (goroutinesWithWaitGroupOn sem batch) s ->
  In e (trace s) -> ev_tid e = S j -> batch !! j = Some o ->
  shows o (ev_act e).
Proof.
  intros Hr He Hj Ho. destruct (wg_state_reachable _ _ _ Hr) as [_ Hw].
  destruct Hw. rewrite Forall_forall in w_shows.
  specialize (w_shows e (proj2 (list_elem_of_In _ _) He)).
  unfold shows_own in w_shows. rewrite Hj, Ho in w_shows. exact w_shows.
Qed.

Lemma wg_code_returned sem batch pc :
  wg_code sem batch pc = Ret -> pc = PcEnd.
Proof.
  destruct pc; simpl; try discriminate; try reflexivity.
  destruct (drop i batch); discriminate.
Qed.

Lemma finished_code t : finished t = true -> code t = Ret.
Proof. unfold finished. destruct (code t); try discriminate. reflexivity. Qed.

(** In [goroutinesWithWaitGroup], once every goroutine has returned, the
    (id, duration) pairs the tasks have reported are those of the batch, each
    once, whatever the schedule and the kind of loop variable. *)
Lemma goroutinesWithWaitGroup_reports_the_batch sem batch s :
  reachable (goroutinesWithWaitGroupOn sem batch) s ->
  complete s = true ->
  Permutation (map snd (observed (trace s))) (map descriptor batch).
Proof.
  intros Hr Hc. destruct (wg_state_reachable _ _ _ Hr) as [_ Hw].
  destruct Hw. unfold complete in Hc. apply andb_prop in Hc as [Hco Hgs].
  apply finished_code in Hco. rewrite w_code in Hco.
  apply wg_code_returned in Hco. subst pc. destruct w_pc as [Hlen _].
  rewrite <- (reported_by_all batch (gos s)); [assumption | assumption |].
  apply Forall_forall. intros t Ht.
  rewrite forallb_forall in Hgs.
  specialize (Hgs t (proj1 (list_elem_of_In _ _) Ht)).
  unfold reported. rewrite (finished_code _ Hgs). reflexivity.
Qed.

(** The elapsed time [goroutinesWithWaitGroup] prints is the span of its
    batch, and it is printed once the coordinator has returned. *)
Lemma goroutinesWithWaitGroupOn_elapsed sem batch s :
  reachable (goroutinesWithWaitGroupOn sem batch) s ->
  (forall e label d,
     In e (trace s) -> ev_act e = APrintf (Elapsed label d) -> d = span batch) /\
  (finished (coordinator s) = true ->
   In (Ev 0 (APrintf (Elapsed "Concurrent processing time" (span batch))))
      (trace s)).
Proof.
  intros Hr. destruct (wg_state_reachable _ _ _ Hr) as [_ Hw]. destruct Hw.
  split.
  - intros e label d He Ha. rewrite Forall_forall in w_elapsed.
    specialize (w_elapsed e (proj2 (list_elem_of_In _ _) He)).
    unfold elapsed_is_span in w_elapsed. rewrite Ha in w_elapsed. exact w_elapsed.
  - intros Hf. apply finished_code in Hf. rewrite w_code in Hf.
    apply wg_code_returned in Hf. subst pc. exact (proj2 w_pc).
Qed.

(** C9.  The batch of [goroutinesWithWaitGroup] has the delays 2, 3, 1, 4
    and 2 seconds.  With time counted by the [time.Sleep] calls (a goroutine
    starts at the time of its [go] statement, [wg.Wait] returns at the time
    of the last [wg.Done]), the elapsed time the scenario prints is, under
    every schedule, the longest delay, 4 seconds, and not their sum, 12
    seconds, which is what the same orders take one after another; and the
    scenario has executions that run to completion. *)
Theorem concurrent_batch_takes_longest_delay sem s :
  reachable (goroutinesWithWaitGroup sem) s ->
  map PrepTime orders =
    [2 * Second; 3 * Second; 1 * Second; 4 * Second; 2 * Second] /\
  span orders = 4 * Second /\
  total_time orders = 12 * Second /\
  (forall e label d,
     In e (trace s) -> ev_act e = APrintf (Elapsed label d) -> d = 4 * Second) /\
  (finished (coordinator s) = true ->
   In (Ev 0 (APrintf (Elapsed "Concurrent processing time" (4 * Second))))
      (trace s)) /\
  (exists sched s',
     run sched (init (goroutinesWithWaitGroup sem)) = Some s' /\
     complete s' = true).
Proof.
  intros Hr.
  destruct (goroutinesWithWaitGroupOn_elapsed sem orders s Hr) as [H1 H2].
  assert (Hspan : span orders = 4 * Second) by reflexivity.
  rewrite Hspan in H1, H2.
  repeat split; auto.
  exists wg_schedule. destruct sem; eexists; split; vm_compute; reflexivity.
Qed.

Lemma concurrent_batch_takes_longest_delay_witness :
  map PrepTime orders =
    [2 * Second; 3 * Second; 1 * Second; 4 * Second; 2 * Second] /\
  span orders = 4 * Second /\
  total_time orders = 12 * Second /\
  (forall e label d,
     In e (trace wg_final) -> ev_act e = APrintf (Elapsed label d) ->
     d = 4 * Second) /\
  (finished (coordinator wg_final) = true ->
   In (Ev 0 (APrintf (Elapsed "Concurrent processing time" (4 * Second))))
      (trace wg_final)) /\
  (exists sched s',
     run sched (init (goroutinesWithWaitGroup SharedVar)) = Some s' /\
     complete s' = true).
Proof.
  apply (concurrent_batch_takes_longest_delay SharedVar wg_final).
  exists wg_schedule. vm_compute. reflexivity.
Defined.

(** The same orders, one after another: [sequentialProcessing] prints 12
    seconds. *)
Example sequentialProcessing_takes_the_sum :
  option_map (fun s => hd_error (trace s))
    (run (repeat 0%nat 29) (init (sequentialProcessing SharedVar)))
  = Some (Some (Ev 0 (APrintf (Elapsed "Sequential processing time" (12 * Second))))).
Proof. vm_compute. reflexivity. Qed.

(** Another execution of [goroutinesWithWaitGroup]: all tasks are launched
    before any runs, and they run in the reverse order. *)
Example goroutinesWithWaitGroup_reverse_order :
  option_map (fun s => (map snd (observed (trace s)), hd_error (trace s)))
    (run (repeat 0 22 ++ flat_map (fun j => repeat j 6) [5; 4; 3; 2; 1]
            ++ repeat 0 4)%nat
       (init (goroutinesWithWaitGroup SharedVar)))
  = Some ([ (5, 2 * Second); (4, 4 * Second); (3, 1 * Second);
            (2, 3 * Second); (1, 2 * Second) ],
          Some (Ev 0 (APrintf (Elapsed "Concurrent processing time" (4 * Second))))).
Proof. vm_compute. reflexivity. Qed.

(** ** The other scenarios *)

(** In every coordinator that follows the discipline of the barrier,
    [wg.Wait] returns after the signals of all its tasks. *)
Lemma barrier_await_after_signals total p s newer older :
  barrier_coordinator false total p ->
  reachable p s ->
  trace s = newer ++ Ev 0 AWait :: older ->
  count_done older = total /\
  forall j, (j < total)%nat -> signals (S j) older = 1%nat.
Proof.
  intros Hc Hr Htr. destruct (disciplined_reachable _ _ _ Hc Hr).
  rewrite Htr in d_await.
  exact (await_after_signals_split _ _ _ _ d_await eq_refl).
Qed.

Lemma barrier_counter total p s :
  barrier_coordinator false total p ->
  reachable p s ->
  panicked s = false /\
  0 <= pending s /\
  pending s = registrations (trace s) - Z.of_nat (count_done (trace s)).
Proof.
  intros Hc Hr. destruct (disciplined_reachable _ _ _ Hc Hr).
  repeat split; auto; lia.
Qed.

(** X1.  [goroutineRuntimeInfo], for every batch, schedule and kind of loop
    variable: nothing panics, the counter is the registrations minus the
    signals and is never negative, and when [wg.Wait] returns every launched
    task has signalled, exactly once. *)
Theorem goroutineRuntimeInfo_awaits_every_task sem batch s :
  reachable (goroutineRuntimeInfoOn sem batch) s ->
  panicked s = false /\
  0 <= pending s /\
  pending s = registrations (trace s) - Z.of_nat (count_done (trace s)) /\
  forall newer older,
    trace s = newer ++ Ev 0 AWait :: older ->
    count_done older = length batch /\
    forall j, (j < length batch)%nat -> signals (S j) older = 1%nat.
Proof.
  intros Hr.
  pose proof (goroutineRuntimeInfoOn_coordinator sem batch) as Hc.
  destruct (barrier_counter _ _ _ Hc Hr) as (H1 & H2 & H3).
  split; [assumption|]. split; [assumption|]. split; [assumption|].
  intros newer older Htr.
  exact (barrier_await_after_signals _ _ _ _ _ Hc Hr Htr).
Qed.

Lemma goroutineRuntimeInfo_awaits_every_task_witness :
  panicked (info_final SharedVar) = false /\
  0 <= pending (info_final SharedVar) /\
  pending (info_final SharedVar) =
    registrations (trace (info_final SharedVar))
    - Z.of_nat (count_done (trace (info_final SharedVar))) /\
  forall newer older,
    trace (info_final SharedVar) = newer ++ Ev 0 AWait :: older ->
    count_done older = length orders /\
    forall j, (j < length orders)%nat -> signals (S j) older = 1%nat.
Proof.
  apply (goroutineRuntimeInfo_awaits_every_task SharedVar orders
           (info_final SharedVar)).
  exists capture_schedule. vm_compute. reflexivity.
Defined.

(** X2.  [anonymousGoroutines], under every schedule: nothing panics, the
    counter is never negative, and when [wg.Wait] returns both goroutines,
    the rush order and the VIP order, have signalled, each once. *)
Theorem anonymousGoroutines_awaits_both s :
  reachable anonymousGoroutines s ->
  panicked s = false /\
  0 <= pending s /\
  (length (gos s) <= 2)%nat /\
  forall newer older,
    trace s = newer ++ Ev 0 AWait :: older ->
    count_done older = 2%nat /\
    signals 1 older = 1%nat /\ signals 2 older = 1%nat.
Proof.
  intros Hr.
  pose proof anonymousGoroutines_coordinator as Hc.
  destruct (barrier_counter _ _ _ Hc Hr) as (H1 & H2 & H3).
  split; [assumption|]. split; [assumption|]. split.
  - destruct (disciplined_reachable _ _ _ Hc Hr). lia.
  - intros newer older Htr.
    destruct (barrier_await_after_signals _ _ _ _ _ Hc Hr Htr) as [Hn Hs].
    split; [assumption|]. split; apply Hs; lia.
Qed.

Lemma anonymousGoroutines_awaits_both_witness :
  panicked anon_final = false /\
  0 <= pending anon_final /\
  (length (gos anon_final) <= 2)%nat /\
  forall newer older,
    trace anon_final = newer ++ Ev 0 AWait :: older ->
    count_done older = 2%nat /\
    signals 1 older = 1%nat /\ signals 2 older = 1%nat.
Proof.
  apply (anonymousGoroutines_awaits_both anon_final).
  exists anon_schedule. vm_compute. reflexivity.
Defined.

Example anon_final_complete :
  complete anon_final = true /\ awaited (trace anon_final) = true.
Proof. vm_compute. split; reflexivity. Qed.

Lemma owed_all_finished gs : owed gs = 0%nat -> forallb finished gs = true.
Proof.
  induction gs as [|t gs IH]; simpl; [reflexivity|].
  unfold owes. destruct (finished t); simpl; [auto | discriminate].
Qed.

Lemma owed_some_running (gs : list thread) :
  owed gs <> 0%nat -> exists (j : nat) t, gs !! j = Some t /\ finished t = false.
Proof.
  induction gs as [|t gs IH]; simpl; [congruence|].
  unfold owes at 1. destruct (finished t) eqn:Hf.
  - intros H. destruct (IH H) as (j & u & Hj & Hu). exists (S j), u. auto.
  - intros _. exists 0%nat, t. auto.
Qed.

(** X3.  The scenarios that use the barrier never hang and never panic:
    in every reachable state either all goroutines have returned or some
    goroutine can take a step (a task that has not returned, or the
    coordinator once no task is outstanding). *)
Theorem barrier_scenarios_never_deadlock sem batch p s :
  In p (barrier_scenarios sem batch) ->
  reachable p s ->
  panicked s = false /\
  (complete s = true \/ exists i s', step i s = Some s').
Proof.
  intros Hp Hr.
  destruct (barrier_scenarios_coordinator _ _ _ Hp) as [total Hc].
  pose proof (disciplined_reachable _ _ _ Hc Hr) as Hd.
  split; [destruct Hd; assumption|].
  destruct (Nat.eq_dec (owed (gos s)) 0%nat) as [H0|Hn].
  - destruct (finished (coordinator s)) eqn:Hf.
    + left. unfold complete. rewrite Hf, (owed_all_finished _ H0). reflexivity.
    + right. exists 0%nat. exact (coordinator_progress _ _ Hd H0 Hf).
  - right. destruct (owed_some_running _ Hn) as (j & t & Hj & Hf).
    exists (S j). exact (guarded_task_progress _ _ _ _ Hd Hj Hf).
Qed.

Lemma barrier_scenarios_never_deadlock_witness :
  panicked (info_final SharedVar) = false /\
  (complete (info_final SharedVar) = true \/
   exists i s', step i (info_final SharedVar) = Some s').
Proof.
  apply (barrier_scenarios_never_deadlock SharedVar orders
           (goroutineRuntimeInfo SharedVar) (info_final SharedVar)).
  - simpl. right. right. left. reflexivity.
  - exists capture_schedule. vm_compute. reflexivity.
Defined.

(** X4.  In [goroutinesWithWaitGroup] each task processes the order it was
    launched for, whatever the batch, the schedule and the kind of loop
    variable: every message and sleep of goroutine [S j] shows the id and
    the duration of order [j], and once all goroutines have returned the
    completion messages report exactly the orders of the batch, each once. *)
Theorem goroutinesWithWaitGroup_each_task_its_order sem batch s :
  reachable (goroutinesWithWaitGroupOn sem batch) s ->
  (forall e (j : nat) o,
     In e (trace s) -> ev_tid e = S j -> batch !! j = Some o ->
     shows o (ev_act e)) /\
  (complete s = true ->
   Permutation (map snd (observed (trace s))) (map descriptor batch)).
Proof.
  intros Hr. split.
  - intros e j o. exact (goroutinesWithWaitGroup_tasks_own_their_order _ _ _ _ _ _ Hr).
  - exact (goroutinesWithWaitGroup_reports_the_batch _ _ _ Hr).
Qed.

Lemma goroutinesWithWaitGroup_each_task_its_order_witness :
  (forall e (j : nat) o,
     In e (trace wg_final) -> ev_tid e = S j -> orders !! j = Some o ->
     shows o (ev_act e)) /\
  (complete wg_final = true ->
   Permutation (map snd (observed (trace wg_final))) (map descriptor orders)).
Proof.
  apply (goroutinesWithWaitGroup_each_task_its_order SharedVar orders wg_final).
  exists wg_schedule. vm_compute. reflexivity.
Defined.

Lemma span_le_total batch : span batch <= total_time batch.
Proof.
  induction batch as [|o rest IH]; simpl; [lia|].
  pose proof (span_nonneg rest). unfold total_time in *. simpl. lia.
Qed.

Lemma span_attained batch :
  span batch = 0 \/ exists o, In o batch /\ span batch = PrepTime o.
Proof.
  induction batch as [|o rest IH]; simpl; [left; reflexivity|].
  destruct (Z.max_spec (Z.max 0 (PrepTime o)) (span rest)) as [[_ ->]|[_ ->]].
  - destruct IH as [H|(o' & Ho & H)]; [left; assumption|].
    right. exists o'. auto.
  - destruct (Z.max_spec 0 (PrepTime o)) as [[_ ->]|[_ ->]].
    + right. exists o. auto.
    + left. reflexivity.
Qed.

(** X5.  [goroutinesWithWaitGroup] on any batch: in logical time the
    elapsed time it prints is, under every schedule, the longest delay of
    the batch (zero for an empty batch or when no delay is positive), never
    more than the sum of the delays; it is printed once the coordinator has
    returned. *)
Theorem goroutinesWithWaitGroup_takes_the_longest_delay sem batch s :
  reachable (goroutinesWithWaitGroupOn sem batch) s ->
  (forall e label d,
     In e (trace s) -> ev_act e = APrintf (Elapsed label d) -> d = span batch) /\
  (finished (coordinator s) = true ->
   In (Ev 0 (APrintf (Elapsed "Concurrent processing time" (span batch))))
      (trace s)) /\
  (forall o, In o batch -> PrepTime o <= span batch) /\
  (span batch = 0 \/ exists o, In o batch /\ span batch = PrepTime o) /\
  span batch <= total_time batch.
Proof.
  intros Hr. destruct (goroutinesWithWaitGroupOn_elapsed _ _ _ Hr) as [H1 H2].
  split; [exact H1|]. split; [exact H2|]. split; [|split].
  - intros o Ho. apply list_elem_of_In in Ho.
    apply list_elem_of_lookup in Ho as [j Hj].
    pose proof (span_ge _ _ _ Hj). lia.
  - apply span_attained.
  - apply span_le_total.
Qed.

Lemma goroutinesWithWaitGroup_takes_the_longest_delay_witness :
  (forall e label d,
     In e (trace wg_final) -> ev_act e = APrintf (Elapsed label d) ->
     d = span orders) /\
  (finished (coordinator wg_final) = true ->
   In (Ev 0 (APrintf (Elapsed "Concurrent processing time" (span orders))))
      (trace wg_final)) /\
  (forall o, In o orders -> PrepTime o <= span orders) /\
  (span orders = 0 \/ exists o, In o orders /\ span orders = PrepTime o) /\
  span orders <= total_time orders.
Proof.
  apply (goroutinesWithWaitGroup_takes_the_longest_delay SharedVar orders wg_final).
  exists wg_schedule. vm_compute. reflexivity.
Defined.

Lemma seq_events_sequentialProcessingOn sem batch vs :
  seq_events (sequentialProcessingOn sem batch) vs 0
  = sequentialProcessing_events batch.
Proof.
  unfold sequentialProcessingOn, sequentialProcessing_events. simpl.
  destruct (seq_events_forRange sem batch
              (Now (fun t =>
                 Printf (Elapsed "Sequential processing time" (t - 0)) Ret))
              0%nat vs 0) as (vs' & H).
  unfold SequentialSynchronous.processOrder in H. unfold processOrder.
  rewrite H. simpl. repeat f_equal. lia.
Qed.

(** X6.  [sequentialProcessing], over any list of orders: its output is the
    header, then for each order of the list, in order, the start message,
    the sleep and the completion message of one [processOrder] call, then
    the elapsed time, which is the sum of the delays (a negative delay
    counts as zero, as [time.Sleep] returns at once).  Every execution
    prints a prefix of that sequence, no goroutine is launched, and the
    execution that runs to the end exists. *)
Theorem sequentialProcessing_takes_the_sum_of_delays sem batch s :
  reachable (sequentialProcessingOn sem batch) s ->
  gos s = [] /\
  (exists n, rev (trace s) = firstn n (sequentialProcessing_events batch)) /\
  (finished (coordinator s) = true ->
   rev (trace s) = sequentialProcessing_events batch) /\
  (exists sched s',
     run sched (init (sequentialProcessingOn sem batch)) = Some s' /\
     finished (coordinator s') = true).
Proof.
  intros [sched Hrun]. unfold init in Hrun.
  destruct (sequential_run _ (sequentialProcessingOn_unsynchronised sem batch) sched
              (Thread (sequentialProcessingOn sem batch) [] 0)
              [] 0 0 (fun _ => zeroOrder) [] s eq_refl eq_refl eq_refl Hrun)
    as (Hg & n & Hn & Hf).
  cbn [clock] in Hn, Hf.
  rewrite seq_events_sequentialProcessingOn, app_nil_r in Hn, Hf.
  split; [assumption|]. split; [|split].
  - exists n. rewrite Hn. apply rev_involutive.
  - intros H. rewrite (Hf H). apply rev_involutive.
  - destruct (sequential_terminates _ (sequentialProcessingOn_unsynchronised sem batch)
                0 [] 0 0 (fun _ => zeroOrder) []) as (m & s' & Hm & Hfin).
    exists (repeat 0%nat m), s'. split; assumption.
Qed.

Lemma sequentialProcessing_takes_the_sum_of_delays_witness :
  gos seqproc_final = [] /\
  (exists n, rev (trace seqproc_final) = firstn n (sequentialProcessing_events orders)) /\
  (finished (coordinator seqproc_final) = true ->
   rev (trace seqproc_final) = sequentialProcessing_events orders) /\
  (exists sched s',
     run sched (init (sequentialProcessingOn SharedVar orders)) = Some s' /\
     finished (coordinator s') = true).
Proof.
  apply (sequentialProcessing_takes_the_sum_of_delays SharedVar orders seqproc_final).
  exists (repeat 0%nat 29). vm_compute. reflexivity.
Defined.

(** ** The closure of [goroutineRuntimeInfo] *)

Lemma forRange_captures sem batch tail :
  (forall i, captures sem batch i false tail) ->
  forall rest i,
    (forall k : nat, rest !! k = batch !! (i + k)%nat) ->
    captures sem batch i false
      (forRange sem i rest (fun x k => WgAdd 1 (Go (capturingTask x) k)) tail).
Proof.
  intros Htail. induction rest as [|o rest IH]; intros i Hrest; simpl.
  - apply Htail.
  - constructor.
    + rewrite <- (Nat.add_0_r i). rewrite <- Hrest. reflexivity.
    + constructor. constructor. apply IH. intros k.
      rewrite Nat.add_succ_comm. apply (Hrest (S k)).
Qed.

Lemma goroutineRuntimeInfoOn_captures sem batch :
  captures sem batch 0 false (goroutineRuntimeInfoOn sem batch).
Proof.
  unfold goroutineRuntimeInfoOn. constructor; [reflexivity|].
  constructor. intros g. constructor; [reflexivity|].
  apply forRange_captures.
  - intros i. constructor. intros g1. constructor; [reflexivity|].
    constructor. constructor. intros g2. constructor; [reflexivity|]. constructor.
  - intros k. reflexivity.
Qed.

Lemma capturing_task_other sem batch (j : nat) t tr e :
  capturing_task sem batch j t tr -> ev_tid e <> S j ->
  capturing_task sem batch j t (e :: tr).
Proof.
  intros [c Ht H|c Ht H|i o Hi Ho Hs Hsv H] He.
  - apply (ct_fresh _ _ _ _ _ c Ht). intros e' [<-|Hin]; auto.
  - apply (ct_deferred _ _ _ _ _ c Ht). intros e' [<-|Hin] He'; [congruence|auto].
  - apply (ct_serving _ _ _ _ _ i o Hi Ho Hs Hsv).
    intros e' [<-|Hin] He'; [congruence|auto].
Qed.

(** After a step of goroutine [S j] every goroutine is as the invariant
    says, provided goroutine [S j] is. *)
Lemma capturing_tasks_insert sem batch (gs : list thread) (j : nat) t t' tr tr' :
  (forall (k : nat) u, gs !! k = Some u -> capturing_task sem batch k u tr) ->
  gs !! j = Some t ->
  (tr' = tr \/ exists a, tr' = Ev (S j) a :: tr) ->
  capturing_task sem batch j t' tr' ->
  forall (k : nat) u,
    <[j:=t']> gs !! k = Some u -> capturing_task sem batch k u tr'.
Proof.
  intros Hall Ht Htr Hnew k u Hk.
  destruct (decide (k = j)) as [->|Hne].
  - rewrite list_lookup_insert_eq in Hk by (eapply lookup_lt_Some; exact Ht).
    injection Hk as <-. exact Hnew.
  - rewrite list_lookup_insert_ne in Hk by congruence.
    destruct Htr as [->|[a ->]]; [exact (Hall k u Hk)|].
    apply capturing_task_other; [exact (Hall k u Hk) | simpl; congruence].
Qed.

(** The invariant after a step of goroutine [S j]. *)
Lemma info_task_step sem batch co (gs : list thread) pe pe' wc wc' vs tr
    (j : nat) t t' tr' :
  info_state sem batch (State co gs pe wc vs tr false) ->
  gs !! j = Some t ->
  (tr' = tr \/ exists a, tr' = Ev (S j) a :: tr) ->
  capturing_task sem batch j t' tr' ->
  (sem = PerIteration ->
   Permutation (map snd (observed tr')) (reported_by batch (<[j:=t']> gs))) ->
  info_state sem batch (State co (<[j:=t']> gs) pe' wc' vs tr' false).
Proof.
  intros [b Hco Hv Htid Htasks Hrep] Ht Htr Hnew Hrep'. simpl in *.
  pose proof (lookup_lt_Some _ _ _ Ht) as Hlt.
  apply (InfoState _ _ _ b); simpl; rewrite ?length_insert; auto.
  - destruct Htr as [->|[a ->]]; [assumption|].
    constructor; [simpl; lia | assumption].
  - exact (capturing_tasks_insert _ _ _ _ _ _ _ _ Htasks Ht Htr Hnew).
Qed.

Lemma info_state_step sem batch i s s' :
  disciplined (length batch) s -> info_state sem batch s ->
  step i s = Some s' -> info_state sem batch s'.
Proof.
  intros Hd [b Hco Hv Htid Htasks Hrep] Hstep.
  unfold step in Hstep.
  destruct s as [[cc cd ck] gs pe wc vs tr pk]; simpl in *.
  assert (pk = false) as -> by (destruct Hd; assumption).
  assert (cd = []) as -> by (destruct Hd; assumption).
  assert (Hpe : 0 <= pe) by (destruct Hd; simpl in *; lia).
  assert (Hcoord : forall a (k : nat) u,
            gs !! k = Some u -> capturing_task sem batch k u (Ev 0 a :: tr)).
  { intros a k u Hk. apply capturing_task_other; [auto | simpl; lia]. }
  destruct i as [|j]; simpl in Hstep.
  - inversion Hco; subst; simpl in Hstep; try discriminate.
    + (* Printf *) injection Hstep as <-.
      apply (InfoState _ _ _ b); simpl; auto.
      * constructor; [simpl; lia | assumption].
      * rewrite observed_skip by assumption. assumption.
    + (* NumGoroutine *) injection Hstep as <-.
      apply (InfoState _ _ _ b); simpl; auto.
    + (* Wait *) destruct (WaitGroup.Wait pe); [|discriminate].
      injection Hstep as <-.
      apply (InfoState _ _ _ b); simpl; auto.
      constructor; [simpl; lia | assumption].
    + (* SetVar *) injection Hstep as <-.
      apply (InfoState _ _ _ true); simpl; auto.
      intros j Hj. simpl in Hv.
      destruct (Nat.eq_dec (slot sem j) (slot sem (length gs))) as [He|Hne].
      * exists (length gs), o. rewrite He, Nat.eqb_refl.
        repeat split; auto; try lia.
        intros ->. simpl in He. congruence.
      * assert (Hlt : (j < length gs + 0)%nat).
        { destruct (Nat.eq_dec j (length gs)) as [->|]; [congruence | lia]. }
        destruct (Hv j Hlt) as (i' & o' & Hi & Ho & Hvs & Hs).
        exists i', o'. apply Nat.eqb_neq in Hne. rewrite Hne.
        repeat split; auto; lia.
    + (* Add *) injection Hstep as <-.
      unfold wg_add, WaitGroup.Add; simpl.
      destruct (Z.ltb_spec (pe + 1) 0) as [Hneg|_]; [lia|].
      apply (InfoState _ _ _ true); simpl; auto.
      constructor; [simpl; lia | assumption].
    + (* Go *) injection Hstep as <-.
      apply (InfoState _ _ _ false); simpl; rewrite ?length_app; simpl.
      * rewrite Nat.add_1_r. assumption.
      * intros j Hj. destruct (Hv j ltac:(simpl; lia)) as (i' & o' & Hi & Hr).
        exists i', o'. split; [simpl in Hi; lia | exact Hr].
      * constructor; [simpl; lia|].
        eapply Forall_impl; [exact Htid|]. simpl. intros; lia.
      * intros j t Hj. apply lookup_app_Some in Hj as [Hj|[Hge Hj]].
        -- auto.
        -- destruct (j - length gs)%nat as [|d] eqn:Hd'; simpl in Hj;
             [|destruct d; discriminate].
           injection Hj as <-.
           assert (j = length gs) as -> by lia.
           apply (ct_fresh _ _ _ _ _ ck eq_refl).
           intros e [<-|Hin]; simpl; [lia|].
           rewrite Forall_forall in Htid.
           specialize (Htid e (proj2 (list_elem_of_In _ _) Hin)). lia.
      * intros Hs. rewrite reported_by_launch by reflexivity. auto.
  - destruct (gs !! j) as [t|] eqn:Ht; [|discriminate].
    pose proof (lookup_lt_Some _ _ _ Ht) as Hlt.
    assert (Hinv : info_state sem batch
                     (State (Thread cc [] ck) gs pe wc vs tr false)).
    { apply (InfoState _ _ _ b); simpl; auto. }
    destruct (Htasks j t Ht) as [c -> Hnone|c -> Hdef|i' o Hi Ho Hs Hsv Hshown].
    + (* not started: defer wg.Done() *)
      simpl in Hstep. injection Hstep as <-. unfold emit, set_thread; simpl.
      eapply info_task_step; [exact Hinv | exact Ht | right; eexists; reflexivity | |].
      * apply (ct_deferred _ _ _ _ _ c eq_refl).
        intros e [<-|Hin] He; [reflexivity|]. exfalso. exact (Hnone e Hin He).
      * intros Hsem.
        rewrite (reported_by_same _ _ _ _ _ Ht) by reflexivity.
        rewrite observed_skip by reflexivity. auto.
    + (* the closure reads the loop variable *)
      simpl in Hstep. injection Hstep as <-. unfold set_thread; simpl.
      destruct (Hv j ltac:(lia)) as (i' & o & Hi & Ho & Hvs & Hs).
      eapply info_task_step; [exact Hinv | exact Ht | left; reflexivity | |].
      * apply (ct_serving _ _ _ _ _ i' o); auto; try lia.
        -- rewrite Hvs. constructor.
        -- intros e Hin He. rewrite (Hdef e Hin He). exact I.
      * intros Hsem.
        rewrite (reported_by_same _ _ _ _ _ Ht) by reflexivity. auto.
    + (* processing order [o] *)
      assert (Hext : forall a, shows o a -> shown_by j o (Ev (S j) a :: tr)).
      { intros a Ha e [<-|Hin] He; [exact Ha | exact (Hshown e Hin He)]. }
      assert (Hsame : forall t', reported t' = reported t -> forall a,
                observation (Ev (S j) a) = None ->
                sem = PerIteration ->
                Permutation (map snd (observed (Ev (S j) a :: tr)))
                            (reported_by batch (<[j:=t']> gs))).
      { intros t' Hr a Ha Hsem.
        rewrite (reported_by_same _ _ _ _ _ Ht Hr), observed_skip by exact Ha.
        auto. }
      inversion Hsv; subst t; simpl in Hstep; try discriminate.
      * injection Hstep as <-. unfold emit, set_thread; simpl.
        eapply info_task_step;
          [exact Hinv | exact Ht | right; eexists; reflexivity | |].
        -- apply (ct_serving _ _ _ _ _ i' o); auto; [constructor|].
           apply Hext. reflexivity.
        -- apply Hsame; reflexivity.
      * injection Hstep as <-. unfold emit, set_thread; simpl.
        eapply info_task_step;
          [exact Hinv | exact Ht | right; eexists; reflexivity | |].
        -- apply (ct_serving _ _ _ _ _ i' o); auto; [constructor|].
           apply Hext. reflexivity.
        -- apply Hsame; reflexivity.
      * injection Hstep as <-. unfold emit, set_thread; simpl.
        eapply info_task_step;
          [exact Hinv | exact Ht | right; eexists; reflexivity | |].
        -- apply (ct_serving _ _ _ _ _ i' o); auto; [constructor|].
           apply Hext. split; reflexivity.
        -- intros Hsem. specialize (Hs Hsem). subst i'.
           rewrite (observed_report _ _ (S j, descriptor o)) by reflexivity.
           rewrite map_app. simpl.
           etransitivity;
             [|apply (reported_by_new _ _ _ _ _ _ Ht Ho); reflexivity].
           apply Permutation_app_tail. auto.
      * injection Hstep as <-. unfold set_thread; simpl.
        eapply info_task_step; [exact Hinv | exact Ht | left; reflexivity | |].
        -- apply (ct_serving _ _ _ _ _ i' o); auto. constructor.
        -- intros Hsem.
           rewrite (reported_by_same _ _ _ _ _ Ht) by reflexivity. auto.
      * injection Hstep as <-. unfold wg_add, WaitGroup.Add; simpl.
        assert (1 <= pe).
        { destruct Hd; simpl in *.
          destruct (owed gs) eqn:E; [|lia].
          pose proof (owed_zero _ _ _ E Ht) as H0. discriminate. }
        destruct (Z.ltb_spec (pe + -1) 0) as [Hneg|_]; [lia|].
        unfold emit, set_pending, set_thread; simpl.
        eapply info_task_step;
          [exact Hinv | exact Ht | right; eexists; reflexivity | |].
        -- apply (ct_serving _ _ _ _ _ i' o); auto; [constructor|].
           apply Hext. exact I.
        -- apply Hsame; reflexivity.
Qed.

Lemma info_state_reachable sem batch s :
  reachable (goroutineRuntimeInfoOn sem batch) s ->
  disciplined (length batch) s /\ info_state sem batch s.
Proof.
  revert s.
  apply (reachable_ind
           (fun s => disciplined (length batch) s /\ info_state sem batch s)).
  - split.
    + apply disciplined_init, goroutineRuntimeInfoOn_coordinator.
    + apply (InfoState _ _ _ false); simpl.
      * apply goroutineRuntimeInfoOn_captures.
      * intros j Hj. lia.
      * constructor.
      * intros j t Hj. discriminate.
      * intros _. destruct batch; exact (perm_nil _).
  - intros i s1 s2 [Hd Hi] Hstep. split.
    + exact (disciplined_step _ _ _ _ Hd Hstep).
    + exact (info_state_step _ _ _ _ _ Hd Hi Hstep).
Qed.

(** X7.  [goroutineRuntimeInfo] with a loop variable per iteration (Go
    1.22 and later), where each variable is assigned once, before the [go]
    statement of its iteration, so that the closure's read races with no
    write: under every schedule and at every moment, each message and the
    sleep of the task launched for order [j] show the id and the duration
    of order [j]. *)
Theorem goroutineRuntimeInfo_per_iteration_task_its_order
    batch s e (j : nat) o :
  reachable (goroutineRuntimeInfoOn PerIteration batch) s ->
  In e (trace s) -> ev_tid e = S j -> batch !! j = Some o ->
  shows o (ev_act e).
Proof.
  intros Hr Hin He Ho. destruct (info_state_reachable _ _ _ Hr) as [Hd Hi].
  destruct Hi as [b Hco Hv Htid Htasks Hrep].
  assert (Hj : (j < length (gos s))%nat).
  { rewrite Forall_forall in Htid.
    specialize (Htid e (proj2 (list_elem_of_In _ _) Hin)). lia. }
  destruct (lookup_lt_is_Some_2 _ _ Hj) as [t Ht].
  destruct (Htasks j t Ht) as [c _ Hnone|c _ Hdef|i o' Hle Ho' Hs Hsv Hshown].
  - exfalso. exact (Hnone e Hin He).
  - rewrite (Hdef e Hin He). exact I.
  - specialize (Hs eq_refl). subst i.
    assert (o' = o) as -> by congruence.
    exact (Hshown e Hin He).
Qed.

Lemma goroutineRuntimeInfo_per_iteration_task_its_order_witness :
  shows (mkOrder 3 (1 * Second)) (APrintf (Ready 3 (1 * Second))).
Proof.
  apply (goroutineRuntimeInfo_per_iteration_task_its_order orders
           (info_final PerIteration)
           (Ev 3 (APrintf (Ready 3 (1 * Second)))) 2 (mkOrder 3 (1 * Second))).
  - exists capture_schedule. vm_compute. reflexivity.
  - vm_compute. auto 40.
  - reflexivity.
  - reflexivity.
Defined.

Lemma barrier_coordinator_returned c n : barrier_coordinator c n Ret -> n = 0%nat.
Proof. intros H. inversion H. reflexivity. Qed.

(** X8.  [goroutineRuntimeInfo] with a loop variable per iteration (Go
    1.22 and later): under every schedule, once all goroutines have
    returned, the completion messages report exactly the orders of the
    batch, each once. *)
Theorem goroutineRuntimeInfo_per_iteration_reports_the_batch batch s :
  reachable (goroutineRuntimeInfoOn PerIteration batch) s ->
  complete s = true ->
  Permutation (map snd (observed (trace s))) (map descriptor batch).
Proof.
  intros Hr Hc. destruct (info_state_reachable _ _ _ Hr) as [Hd Hi].
  destruct Hi as [b Hco Hv Htid Htasks Hrep].
  unfold complete in Hc. apply andb_prop in Hc as [Hfc Hgs].
  assert (Hlen : length (gos s) = length batch).
  { destruct Hd. apply finished_code in Hfc. rewrite Hfc in d_coord.
    apply barrier_coordinator_returned in d_coord. lia. }
  rewrite <- (reported_by_all batch (gos s)); [auto | assumption |].
  apply Forall_forall. intros t Ht.
  rewrite forallb_forall in Hgs.
  specialize (Hgs t (proj1 (list_elem_of_In _ _) Ht)).
  unfold reported. rewrite (finished_code _ Hgs). reflexivity.
Qed.

Lemma goroutineRuntimeInfo_per_iteration_reports_the_batch_witness :
  Permutation (map snd (observed (trace (info_final PerIteration))))
              (map descriptor orders).
Proof.
  apply (goroutineRuntimeInfo_per_iteration_reports_the_batch orders
           (info_final PerIteration)).
  - exists capture_schedule. vm_compute. reflexivity.
  - vm_compute. reflexivity.
Defined.

(** ** Launching without waiting *)












Example multiple_complete_is_complete sem :
  complete (multiple_complete sem) = true.
Proof. destruct sem; vm_compute; reflexivity. Qed.


